(** * NEMiOSApp: the key generator and signer of [ed25519/generator.c]

    A shallow embedding of [SHA256_hash], [createPrivateKey],
    [createPublicKey] and [Sign], together with the two libc calls they
    are built on ([sscanf] and [sprintf] with the format [%02x]), and the
    properties of the hex codec, of key derivation and of signing.

    Conventions.
    - An [unsigned char] is a [byte]; a buffer (an array, a [malloc]ed
      block, a C string) is a [list byte], the end of the list standing
      for the end of the object.  A hex text is the list of its characters.
    - A function that fills a buffer handed in by its caller takes the
      buffer's old content and returns the new one.  [Sign] is modelled
      twice: [Sign] for a call whose buffers are separate objects, each a
      list of its own, and [Sign_at] for a call on one store, where the
      arguments are offsets and the buffers may overlap.
    - A store through an index is stdpp's [<[i:=x]>], a block store is
      [list_inserts]; both leave the buffer alone past its end, where the
      C program would write outside the object.
    - The curve arithmetic, the Keccak hash and the entropy source are not
      part of [generator.c]; they are the fields of [Collaborators]. *)

From Stdlib Require Import ZArith List Lia.
From Stdlib Require Import Strings.Byte Strings.String.
From stdpp Require Import base option numbers list.

Local Open Scope byte_scope.

(** ** Unsigned characters and C integers *)

(** Integer promotion of an [unsigned char]. *)
Definition uchar_to_int (c : byte) : Z := Z.of_N (Byte.to_N c).

(** Conversion of an [int] to [unsigned char]: reduction modulo 256. *)
Definition int_to_uchar (z : Z) : byte :=
  default x00 (Byte.of_N (Z.to_N (z `mod` 256))).

(** Reading [buf[i]]. *)
Definition load (buf : list byte) (i : nat) : byte := default x00 (buf !! i).

(** [memcpy(dst + off, src, n)]. *)
Definition memcpy (dst : list byte) (off : nat) (src : list byte) (n : nat)
  : list byte :=
  list_inserts off (take n src) dst.

(** [for (i = start; i < start + count; ++i) body], threading the state. *)
Fixpoint for_loop {S : Type} (start count : nat) (body : nat → S → S) (s : S)
  : S :=
  match count with
  | O => s
  | Datatypes.S count' => for_loop (Datatypes.S start) count' body (body start s)
  end.

(** ** The libc conversions used by the generator *)

(** [isspace] in the C locale. *)
Definition isspace (c : byte) : bool :=
  match c with
  | x20 | x09 | x0a | x0b | x0c | x0d => true
  | _ => false
  end.

(** Whether [c] lies between the characters [lo] and [hi]. *)
Definition in_range (lo hi c : byte) : bool :=
  bool_decide (uchar_to_int lo ≤ uchar_to_int c ≤ uchar_to_int hi)%Z.

(** The value of a hexadecimal digit, in either case, as [strtoul] takes
    it: [c - '0'], [c - 'a' + 10] or [c - 'A' + 10]. *)
Definition hex_value (c : byte) : option Z :=
  if in_range "0" "9" c then Some (uchar_to_int c - uchar_to_int "0")%Z
  else if in_range "a" "f" c
  then Some (uchar_to_int c - uchar_to_int "a" + 10)%Z
  else if in_range "A" "F" c
  then Some (uchar_to_int c - uchar_to_int "A" + 10)%Z
  else None.

Definition isxdigit (c : byte) : bool := bool_decide (is_Some (hex_value c)).

(** White space in front of a conversion is skipped and does not count
    against the field width. *)
Fixpoint skip_space (s : list byte) : list byte :=
  match s with
  | c :: s' => if isspace c then skip_space s' else s
  | [] => []
  end.

(** [sscanf(s, "%02x", &value)]: after white space, at most two characters
    are read: an optional sign and hexadecimal digits (a [0x] prefix
    cut by the width reads as the digit [0]).  [Some v] when [v] is stored
    in [value] (the call returns 1); [None] when nothing is stored (the
    call returns 0 or [EOF]) and [value] keeps what it held. *)
Definition sscanf_02x (s : list byte) : option Z :=
  match skip_space s with
  | [] => None
  | c0 :: s1 =>
      match c0 with
      | "+" => head s1 ≫= hex_value
      | "-" => Z.opp <$> (head s1 ≫= hex_value)
      | _ =>
          d0 ← hex_value c0;
          match head s1 ≫= hex_value with
          | Some d1 => Some (16 * d0 + d1)%Z
          | None => Some d0
          end
      end
  end.

(** The sixteen digits [sprintf] prints for [%x]. *)
Definition xdigits : list byte :=
  ["0"; "1"; "2"; "3"; "4"; "5"; "6"; "7";
   "8"; "9"; "a"; "b"; "c"; "d"; "e"; "f"].

Definition xdigit (n : Z) : byte := load xdigits (Z.to_nat n).

(** [sprintf(p, "%02x", c)] for an [unsigned char] argument: the three
    characters stored at [p], two digits and the terminating NUL. *)
Definition sprintf_02x (c : byte) : list byte :=
  let v := uchar_to_int c in
  [xdigit (v `div` 16); xdigit (v `mod` 16); x00].

(** ** Indeterminate values

    Objects with automatic storage and [malloc]ed blocks start with
    indeterminate content.  The model reads that content from an
    environment, so that a result which does not depend on it is proved
    not to. *)
Record indeterminate : Type := {
  stale_int : nat → Z;
  stale_byte : nat → byte
}.

(** A fresh object of [n] bytes. *)
Definition uninitialized (g : indeterminate) (n : nat) : list byte :=
  stale_byte g <$> seq 0 n.

(** ** Sizes (lines 13-20) *)

Definition privateKeyPartSize : nat := 32.
Definition signaturePartRAM : nat := 32.
Definition privateKeySize : nat := 64.
Definition publicKeySize : nat := 32.
Definition signatureSize : nat := 64.
Definition seedSize : nat := 32.
Definition hash_512_Size : nat := 64.
Definition hash_256_Size : nat := 32.

(** ** The loops of the hex codec *)

(** The printing loop of [SHA256_hash], [createPrivateKey] and
    [createPublicKey]:
    [for (i = 0; i < n; i++) sprintf(&out[i * 2], "%02x", src[i]);] *)
Definition print_hex (n : nat) (src out : list byte) : list byte :=
  for_loop 0 n (λ i out, list_inserts (i * 2) (sprintf_02x (load src i)) out) out.

(** The scanning loop of [createPublicKey] and [Sign]:
    [for (i = 0; i < n; ++i)
       { int value; sscanf(text + 2 * i, "%02x", &value); bytes[idx i] = value; }]
    [value0 i] is the indeterminate content of [value] in round [i].
    [text] holds what lies in the object from the pointer on; a round that
    starts past the end of the list would read outside the object. *)
Definition scan_hex (n : nat) (idx : nat → nat) (value0 : nat → Z)
    (text bytes : list byte) : list byte :=
  for_loop 0 n (λ i bytes,
    let value := default (value0 i) (sscanf_02x (drop (2 * i) text)) in
    <[idx i := int_to_uchar value]> bytes) bytes.

(** Lines 57-62 and 95-100: the private key text fills
    [private_key_bytes] from its last cell to its first. *)
Definition scan_private_key (g : indeterminate) (private_key : list byte)
  : list byte :=
  scan_hex privateKeyPartSize (λ i, privateKeyPartSize - 1 - i) (stale_int g)
    private_key (uninitialized g privateKeyPartSize).

(** Lines 120-125: the public key text overwrites [private_key_bytes]
    from its first cell to its last. *)
Definition scan_public_key (g : indeterminate) (public_key bytes : list byte)
  : list byte :=
  scan_hex publicKeySize (λ i, i) (λ i, stale_int g (privateKeyPartSize + i))
    public_key bytes.

(** Lines 68-70 and 141-143:
    [h[0] &= 248; h[31] &= 127; h[31] |= 64;] *)
Definition clamp_in_place (h : list byte) : list byte :=
  let h := <[0 := int_to_uchar (Z.land (uchar_to_int (load h 0)) 248)]> h in
  let h := <[31 := int_to_uchar (Z.land (uchar_to_int (load h 31)) 127)]> h in
  <[31 := int_to_uchar (Z.lor (uchar_to_int (load h 31)) 64)]> h.

(** ** The collaborators

    What [generator.c] takes from [keccak.h], [ge.h] and [sc.h].  Each
    function is given the bytes the C function reads through its pointer
    arguments and returns the bytes it stores:
    - [keccak in mdlen]: the [mdlen]-byte digest of [in];
    - [ge_scalarmult_base a]: [a] is the 32-byte scalar;
    - [ge_p3_tobytes h]: the 32-byte encoding of a point;
    - [sc_reduce s]: [s] is the 64-byte buffer, the result the 32 bytes
      stored back at its start;
    - [sc_muladd a b c]: three 32-byte scalars, the 32 bytes stored. *)
Class Collaborators : Type := {
  ge_p3 : Type;
  keccak : list byte → nat → list byte;
  ge_scalarmult_base : list byte → ge_p3;
  ge_p3_tobytes : ge_p3 → list byte;
  sc_reduce : list byte → list byte;
  sc_muladd : list byte → list byte → list byte → list byte;
  keccak_length : ∀ m mdlen, length (keccak m mdlen) = mdlen;
  ge_p3_tobytes_length : ∀ h, length (ge_p3_tobytes h) = 32;
  sc_reduce_length : ∀ s, length (sc_reduce s) = 32;
  sc_muladd_length : ∀ a b c, length (sc_muladd a b c) = 32
}.

Section Generator.
Context `{Collaborators}.

(** *** [SHA256_hash] (lines 22-32)

    [in] holds the [inLen] bytes of the input; the result is the new
    content of [out]. *)
Definition SHA256_hash (out input : list byte) : list byte :=
  let inLen := length input in
  let md := keccak (take inLen input) hash_256_Size in
  print_hex hash_256_Size md out.

(** *** [createPrivateKey] (lines 33-53)

    [seed] is what [ed25519_create_seed] stored in the local array. *)
Definition createPrivateKey (g : indeterminate)
    (seed out_private_key : list byte) : list byte :=
  let private_key := keccak (take seedSize seed) privateKeySize in
  let converted_private_key :=
    print_hex (privateKeySize / 2) private_key
      (uninitialized g privateKeySize) in
  for_loop 0 privateKeySize
    (λ i out, <[i := load converted_private_key i]> out) out_private_key.

(** *** [createPublicKey] (lines 54-83) *)

(** The scalar handed to [ge_scalarmult_base] at line 75. *)
Definition createPublicKey_scalar (g : indeterminate)
    (private_key : list byte) : list byte :=
  let private_key_bytes := scan_private_key g private_key in
  let private_key_hash :=
    keccak (take privateKeyPartSize private_key_bytes) privateKeySize in
  let private_key_hash := clamp_in_place private_key_hash in
  take 32 private_key_hash.

Definition createPublicKey (g : indeterminate)
    (public_key private_key : list byte) : list byte :=
  let A := ge_scalarmult_base (createPublicKey_scalar g private_key) in
  let in_public_key := ge_p3_tobytes A in
  print_hex publicKeySize in_public_key public_key.

(** *** [Sign] (lines 84-149)

    A call whose four buffers are separate objects: [signature] is the old
    content of the signature buffer and the result its new content; [data]
    holds the [dataSize] bytes of the message. *)
Definition Sign (g : indeterminate)
    (signature data public_key privateKey : list byte) : list byte :=
  let dataSize := length data in
  let private_key_bytes := scan_private_key g privateKey in
  let privateKeyHash :=
    keccak (take privateKeyPartSize private_key_bytes) privateKeySize in
  let inData := uninitialized g (dataSize + privateKeyPartSize) in
  let inData :=
    memcpy inData 0 (drop privateKeyPartSize privateKeyHash)
      privateKeyPartSize in
  let inData := memcpy inData privateKeyPartSize data dataSize in
  let r := keccak (take (dataSize + privateKeyPartSize) inData) hash_512_Size in
  let r := list_inserts 0 (sc_reduce r) r in
  let R := ge_scalarmult_base (take 32 r) in
  let signature := list_inserts 0 (ge_p3_tobytes R) signature in
  let private_key_bytes := scan_public_key g public_key private_key_bytes in
  let inData := uninitialized g (dataSize + publicKeySize + signaturePartRAM) in
  let inData := memcpy inData 0 signature signaturePartRAM in
  let inData := memcpy inData signaturePartRAM private_key_bytes publicKeySize in
  let inData := memcpy inData (signaturePartRAM + publicKeySize) data dataSize in
  let hram :=
    keccak (take (dataSize + signaturePartRAM + publicKeySize) inData)
      hash_512_Size in
  let privateKeyRightPart := uninitialized g privateKeyPartSize in
  let privateKeyRightPart :=
    memcpy privateKeyRightPart 0 privateKeyHash privateKeyPartSize in
  let privateKeyRightPart := clamp_in_place privateKeyRightPart in
  let hram := list_inserts 0 (sc_reduce hram) hram in
  list_inserts signaturePartRAM
    (sc_muladd (take 32 hram) (take 32 privateKeyRightPart) (take 32 r))
    signature.

(** The same call on one store [m]: the four pointer arguments are offsets
    into [m] and may name overlapping buffers; the locals and the
    [malloc]ed blocks are objects of their own.  The result is the store
    after the call.  [R] is stored through [signature] (line 118) before
    [public_key] is scanned (lines 120-125) and before [signature] and
    [data] are read again for the second hash (lines 129-131). *)
Definition Sign_at (g : indeterminate) (m : list byte)
    (signature data dataSize public_key privateKey : nat) : list byte :=
  let private_key_bytes := scan_private_key g (drop privateKey m) in
  let privateKeyHash :=
    keccak (take privateKeyPartSize private_key_bytes) privateKeySize in
  let inData := uninitialized g (dataSize + privateKeyPartSize) in
  let inData :=
    memcpy inData 0 (drop privateKeyPartSize privateKeyHash)
      privateKeyPartSize in
  let inData := memcpy inData privateKeyPartSize (drop data m) dataSize in
  let r := keccak (take (dataSize + privateKeyPartSize) inData) hash_512_Size in
  let r := list_inserts 0 (sc_reduce r) r in
  let R := ge_scalarmult_base (take 32 r) in
  let m := list_inserts signature (ge_p3_tobytes R) m in
  let private_key_bytes :=
    scan_public_key g (drop public_key m) private_key_bytes in
  let inData := uninitialized g (dataSize + publicKeySize + signaturePartRAM) in
  let inData := memcpy inData 0 (drop signature m) signaturePartRAM in
  let inData := memcpy inData signaturePartRAM private_key_bytes publicKeySize in
  let inData :=
    memcpy inData (signaturePartRAM + publicKeySize) (drop data m) dataSize in
  let hram :=
    keccak (take (dataSize + signaturePartRAM + publicKeySize) inData)
      hash_512_Size in
  let privateKeyRightPart := uninitialized g privateKeyPartSize in
  let privateKeyRightPart :=
    memcpy privateKeyRightPart 0 privateKeyHash privateKeyPartSize in
  let privateKeyRightPart := clamp_in_place privateKeyRightPart in
  let hram := list_inserts 0 (sc_reduce hram) hram in
  list_inserts (signature + signaturePartRAM)
    (sc_muladd (take 32 hram) (take 32 privateKeyRightPart) (take 32 r))
    m.

End Generator.

(** ** The operations as the specification words them

    These definitions follow the prose of the specification, not the C
    code; the theorems below compare the two. *)
Module Spec.

(** §4.1 [encode]: every byte as two lowercase hex digits, the most
    significant nibble first, in the order of the input. *)
Definition hexEncode (bytes : list byte) : list byte :=
  b ← bytes;
  [xdigit (uchar_to_int b `div` 16); xdigit (uchar_to_int b `mod` 16)].

(** The byte written by the character pair number [p] of [text]. *)
Definition hex_pair (text : list byte) (p : nat) : option byte :=
  c0 ← text !! (2 * p);
  c1 ← text !! (2 * p + 1);
  d0 ← hex_value c0;
  d1 ← hex_value c1;
  Some (int_to_uchar (16 * d0 + d1)).

(** §4.1 [decode]: byte [i] of the output comes from character pair [i],
    or from pair [n - 1 - i] when [reversed]; a wrong length or a character
    that is no hex digit is a decode error, [None]. *)
Definition hexDecode (n : nat) (text : list byte) (reversed : bool)
  : option (list byte) :=
  if decide (length text = 2 * n)
  then mapM (λ i, hex_pair text (if reversed then n - 1 - i else i)) (seq 0 n)
  else None.

(** §4.2 [clamp]: clear the low 3 bits of byte 0, clear the high bit of
    byte 31 and set bit 6 of byte 31. *)
Definition clamp (scalar : list byte) : list byte :=
  let clear_low3 b :=
    int_to_uchar
      (Z.clearbit (Z.clearbit (Z.clearbit (uchar_to_int b) 0) 1) 2) in
  let fix_high b :=
    int_to_uchar (Z.setbit (Z.clearbit (uchar_to_int b) 7) 6) in
  alter fix_high 31 (alter clear_low3 0 scalar).

Section Operations.
Context `{Collaborators}.

Definition Hash512 (m : list byte) : list byte := keccak m 64.
Definition Hash256 (m : list byte) : list byte := keccak m 32.

(** §4.3 [generatePrivateKey], for the seed the entropy source drew. *)
Definition generatePrivateKey (seed : list byte) : list byte :=
  hexEncode (take 32 (Hash512 seed)).

(** The clamped scalar of §3 and of steps 1-3 of §4.3. *)
Definition scalar (PrivateKeyText : list byte) : option (list byte) :=
  kBytes ← hexDecode 32 PrivateKeyText true;
  Some (clamp (take 32 (Hash512 kBytes))).

(** §4.3 [derivePublicKey]. *)
Definition derivePublicKey (PrivateKeyText : list byte)
  : option (list byte) :=
  a ← scalar PrivateKeyText;
  Some (hexEncode (ge_p3_tobytes (ge_scalarmult_base a))).

(** §4.4 [sign]. *)
Definition sign (message PublicKeyText PrivateKeyText : list byte)
  : option (list byte) :=
  kBytes ← hexDecode 32 PrivateKeyText true;
  let expanded := Hash512 kBytes in
  let nonceSeed := take 32 (drop 32 expanded) in
  let r := sc_reduce (Hash512 (nonceSeed ++ message)) in
  let encodedR := ge_p3_tobytes (ge_scalarmult_base r) in
  Abytes ← hexDecode 32 PublicKeyText false;
  let hram := sc_reduce (Hash512 (encodedR ++ Abytes ++ message)) in
  let a := clamp (take 32 expanded) in
  let S := sc_muladd hram a r in
  Some (encodedR ++ S).

(** §4.5 [digest]. *)
Definition digest (input : list byte) : list byte :=
  hexEncode (Hash256 input).

End Operations.
End Spec.

(** ** Predicates on texts *)

(** A text of exactly [2 * n] hex digits, of either case. *)
Definition is_hex_text (n : nat) (text : list byte) : bool :=
  bool_decide (length text = 2 * n) && forallb isxdigit text.

(** A digit as [sprintf] prints it. *)
Definition is_lower_xdigit (c : byte) : bool := existsb (Byte.eqb c) xdigits.

(** [tolower] in the C locale. *)
Definition tolower (c : byte) : byte :=
  let v := uchar_to_int c in
  if bool_decide (65 ≤ v ≤ 90)%Z then int_to_uchar (v + 32) else c.

(** Two texts that differ at most in the case of their letters. *)
Definition same_modulo_case (t1 t2 : list byte) : Prop :=
  tolower <$> t1 = tolower <$> t2.

(** ** Auxiliary definitions for the proofs *)

(** What follows the digits after [n] rounds of the printing loop: the old
    content before the first round, afterwards the NUL of the last
    [sprintf]. *)
Definition print_hex_rest (n : nat) (out : list byte) : list byte :=
  match n with
  | O => out
  | Datatypes.S _ => x00 :: drop (2 * n + 1) out
  end.

(** The bytes named by the first [n] character pairs of a text, [x00]
    where a pair names none. *)
Definition hex_bytes (text : list byte) (n : nat) : list byte :=
  (λ p, default x00 (Spec.hex_pair text p)) <$> seq 0 n.

(** The signature as the chain of collaborator calls that produces it from
    the bytes of the two keys. *)
Definition signature_of `{Collaborators} (kBytes Abytes data : list byte)
  : list byte :=
  let expanded := Spec.Hash512 kBytes in
  let r := sc_reduce (Spec.Hash512 (take 32 (drop 32 expanded) ++ data)) in
  let encodedR := ge_p3_tobytes (ge_scalarmult_base r) in
  let hram := sc_reduce (Spec.Hash512 (encodedR ++ Abytes ++ data)) in
  encodedR ++ sc_muladd hram (Spec.clamp (take 32 expanded)) r.


(** ** Sample inputs

    A small instance of the collaborators, with the right sizes and no
    cryptography, and some inputs to run the generator on. *)
Module Sample.

Definition counting_digest (m : list byte) (mdlen : nat) : list byte :=
  (λ i, int_to_uchar (Z.of_nat (length m + 7 * i))) <$> seq 0 mdlen.

Definition collaborators : Collaborators.
Proof.
  refine {| ge_p3 := list byte;
            keccak := counting_digest;
            ge_scalarmult_base := λ a, a;
            ge_p3_tobytes := resize 32 x00;
            sc_reduce := resize 32 x00;
            sc_muladd := λ a b c, resize 32 x00 (b ++ a ++ c) |}.
  - intros m mdlen. unfold counting_digest. by rewrite length_fmap, length_seq.
  - intros h. apply length_resize.
  - intros s. apply length_resize.
  - intros a b c. apply length_resize.
Defined.

(** A second instance, whose digest and whose [sc_muladd] depend on the
    content of what they are given. *)
Definition byte_sum (m : list byte) : Z :=
  foldr (λ b acc, uchar_to_int b + acc)%Z 0%Z m.

Definition summing_digest (m : list byte) (mdlen : nat) : list byte :=
  (λ i, int_to_uchar (byte_sum m + Z.of_nat (3 * i))) <$> seq 0 mdlen.

Definition mixing : Collaborators.
Proof.
  refine {| ge_p3 := list byte;
            keccak := summing_digest;
            ge_scalarmult_base := λ a, a;
            ge_p3_tobytes := resize 32 x00;
            sc_reduce := resize 32 x00;
            sc_muladd := λ a b c,
              resize 32 x00
                (zip_with
                   (λ x y, int_to_uchar (uchar_to_int x + uchar_to_int y))
                   a (b ++ c)) |}.
  - intros m mdlen. unfold summing_digest. by rewrite length_fmap, length_seq.
  - intros h. apply length_resize.
  - intros s. apply length_resize.
  - intros a b c. apply length_resize.
Defined.

Definition stale : indeterminate :=
  {| stale_int := λ i, (Z.of_nat i - 3)%Z; stale_byte := λ _, x55 |}.

Definition stale' : indeterminate :=
  {| stale_int := λ _, 77%Z; stale_byte := λ _, xaa |}.

Definition private_key : list byte :=
  list_byte_of_string
    "575dbb3062267eff57c970a336ebbc8fbcfe12c5bd3ed7bc11eb0481d7704ced".

Definition private_key_upper : list byte :=
  list_byte_of_string
    "575DBB3062267EFF57C970A336EBBC8FBCFE12C5BD3ED7BC11EB0481D7704CED".

Definition public_key : list byte :=
  list_byte_of_string
    "c5f54ba980fcbb657dbaaa42700539b207873e134d2375efeab5f1ab52f87844".

Definition public_key_upper : list byte :=
  list_byte_of_string
    "C5F54BA980FCBB657DBAAA42700539B207873E134D2375EFEAB5F1AB52F87844".

Definition message : list byte := list_byte_of_string "nem".

Definition seed : list byte := replicate 32 x00.


(** A private key text one character short. *)
Definition short_private_key : list byte := replicate 63 "f".

(** The 64-character text it is taken for. *)
Definition padded_private_key : list byte := replicate 62 "f" ++ ["0"; "f"].

(** A private key text whose second character is no hex digit. *)
Definition odd_private_key : list byte := "1" :: "g" :: replicate 62 "f".

(** The 64-character text it is taken for. *)
Definition even_private_key : list byte := "0" :: "1" :: replicate 62 "f".

(** A store with four separate buffers: a 64-byte signature buffer at
    offset 0, the message at 64, the public key text at 67 and the private
    key text at 131, each text followed by its NUL. *)
Definition store : list byte :=
  replicate 64 x55 ++ message ++ public_key ++ [x00] ++ private_key ++ [x00].

(** The first store with the public key text that [createPublicKey]
    prints for its private key, under [mixing]. *)
Definition derived_store : list byte :=
  replicate 64 x55 ++ message
  ++ take 64 (@createPublicKey mixing stale (replicate 65 x00) private_key)
  ++ [x00] ++ private_key ++ [x00].

(** A store for signing in place: a 64-byte message at offset 0, which is
    the signature buffer too, the public key text at 64 and the private
    key text at 129. *)
Definition store_in_place : list byte :=
  replicate 64 "m" ++ public_key ++ [x00] ++ private_key ++ [x00].

End Sample.

(** * Proofs *)

(** ** Loops and block stores *)


Lemma for_loop_snoc {S : Type} (body : nat → S → S) count start (s : S) :
  for_loop start (Datatypes.S count) body s
  = body (start + count) (for_loop start count body s).
Proof.
  revert start s. induction count as [|k IH]; intros start s.
  - simpl. by rewrite Nat.add_0_r.
  - change (for_loop start (Datatypes.S (Datatypes.S k)) body s)
      with (for_loop (Datatypes.S start) (Datatypes.S k) body (body start s)).
    rewrite IH. simpl. by rewrite Nat.add_succ_r.
Qed.

(** A loop storing [F i] in cell [i] rewrites the first [n] cells. *)
Lemma fill_forward (F : nat → byte) n (b : list byte) :
  n ≤ length b →
  for_loop 0 n (λ i b, <[i := F i]> b) b = (F <$> seq 0 n) ++ drop n b.
Proof.
  induction n as [|n IH]; intros Hn.
  - by rewrite drop_0.
  - rewrite for_loop_snoc, IH by lia. simpl "+".
    rewrite seq_S, fmap_app. simpl.
    destruct (lookup_lt_is_Some_2 b n) as [x Hx]; [lia|].
    rewrite (drop_S _ _ _ Hx).
    rewrite <- (Nat.add_0_r n) at 1.
    replace (n + 0) with (length (F <$> seq 0 n) + 0) at 1
      by (rewrite length_fmap, length_seq; lia).
    rewrite insert_app_r. simpl. by rewrite <- app_assoc.
Qed.

(** A loop storing [F i] in cell [n - 1 - i] fills the buffer backwards. *)
Lemma fill_backward_upto (F : nat → byte) n k (b : list byte) :
  length b = n → k ≤ n →
  for_loop 0 k (λ i b, <[n - 1 - i := F i]> b) b
  = take (n - k) b ++ reverse (F <$> seq 0 k).
Proof.
  intros Hb. induction k as [|k IH]; intros Hk.
  - simpl. rewrite Nat.sub_0_r, take_ge by lia. by rewrite app_nil_r.
  - rewrite for_loop_snoc, IH by lia. simpl "+".
    rewrite seq_S, fmap_app, reverse_app. simpl.
    destruct (lookup_lt_is_Some_2 b (n - 1 - k)) as [x Hx]; [lia|].
    replace (n - k) with (Datatypes.S (n - 1 - k)) by lia.
    rewrite (take_S_r _ _ _ Hx).
    replace (n - Datatypes.S k) with (n - 1 - k) by lia.
    rewrite <- app_assoc.
    assert (Hl : length (take (n - 1 - k) b) = n - 1 - k)
      by (rewrite length_take; lia).
    rewrite <- Hl at 1. rewrite <- (Nat.add_0_r (length _)).
    rewrite insert_app_r. simpl. done.
Qed.

Lemma fill_backward (F : nat → byte) n (b : list byte) :
  length b = n →
  for_loop 0 n (λ i b, <[n - 1 - i := F i]> b) b = reverse (F <$> seq 0 n).
Proof.
  intros Hb. rewrite (fill_backward_upto F n n b Hb) by lia.
  by rewrite Nat.sub_diag, take_0.
Qed.


(** *** Block stores *)

Lemma list_inserts_exact (k l : list byte) :
  length k = length l → list_inserts 0 k l = k.
Proof.
  intros Hl. rewrite <- (app_nil_r k) at 1. by apply list_inserts_0_l.
Qed.

Lemma list_inserts_0_drop (k l : list byte) :
  length k ≤ length l → list_inserts 0 k l = k ++ drop (length k) l.
Proof.
  intros Hl. rewrite <- (take_drop (length k) l) at 1.
  apply list_inserts_0_r. rewrite length_take. lia.
Qed.

Lemma list_inserts_after (p k q : list byte) off :
  length p = off → list_inserts off k (p ++ q) = p ++ list_inserts 0 k q.
Proof.
  intros <-. rewrite <- (Nat.add_0_r (length p)). apply list_inserts_app_r.
Qed.

Lemma take_list_inserts_0 (k l : list byte) n :
  length k = n → n ≤ length l → take n (list_inserts 0 k l) = k.
Proof.
  intros Hk Hl. rewrite list_inserts_0_drop by lia.
  by apply take_app_length'.
Qed.

Lemma take_list_inserts_ge (k l : list byte) n off :
  n ≤ off → take n (list_inserts off k l) = take n l.
Proof.
  revert off. induction k as [|y k IH]; intros off Hoff; [done|].
  simpl. rewrite take_insert_ge by lia. apply IH. lia.
Qed.

Lemma list_inserts_take (k l : list byte) off m :
  list_inserts off k (take m l) = take m (list_inserts off k l).
Proof.
  revert off. induction k as [|y k IH]; intros off; [done|].
  simpl. rewrite IH, take_insert. case_decide; [done|].
  apply list_insert_ge. rewrite length_take. lia.
Qed.

Lemma memcpy_two (a b buf : list byte) na nb :
  length a = na → length b = nb → length buf = nb + na →
  memcpy (memcpy buf 0 a na) na b nb = a ++ b.
Proof.
  intros Ha Hb Hbuf. unfold memcpy. rewrite !take_ge by lia.
  rewrite list_inserts_0_drop by lia.
  rewrite list_inserts_after by done.
  rewrite list_inserts_exact; [done|]. rewrite length_drop. lia.
Qed.

Lemma memcpy_three (a b c buf : list byte) na nb nc :
  length a = na → length b = nb → length c = nc →
  length buf = nc + nb + na →
  memcpy (memcpy (memcpy buf 0 a na) na b nb) (na + nb) c nc = a ++ b ++ c.
Proof.
  intros Ha Hb Hc Hbuf. unfold memcpy. rewrite !take_ge by lia.
  rewrite list_inserts_0_drop by lia.
  rewrite list_inserts_after by done.
  rewrite list_inserts_0_drop by (rewrite length_drop; lia).
  rewrite app_assoc.
  rewrite list_inserts_after by (rewrite length_app; lia).
  rewrite list_inserts_exact by (rewrite !length_drop; lia).
  by rewrite <- app_assoc.
Qed.

Lemma memcpy_take dst off src n :
  memcpy dst off src n = memcpy dst off (take n src) n.
Proof. unfold memcpy. by rewrite take_take, Nat.min_id. Qed.

Lemma list_inserts_at (k l : list byte) i :
  i + length k ≤ length l →
  list_inserts i k l = take i l ++ k ++ drop (i + length k) l.
Proof.
  intros Hl. rewrite <- (take_drop i l) at 1.
  rewrite list_inserts_after by (rewrite length_take; lia).
  rewrite list_inserts_0_drop by (rewrite length_drop; lia).
  by rewrite drop_drop.
Qed.

Lemma take_drop_list_inserts_same (k l : list byte) i n :
  length k = n → i + n ≤ length l →
  take n (drop i (list_inserts i k l)) = k.
Proof.
  intros Hk Hl. rewrite list_inserts_at by lia.
  rewrite drop_app_length' by (rewrite length_take; lia).
  by apply take_app_length'.
Qed.

(** A block store does not change what is read from a range it does not
    overlap. *)
Lemma take_drop_list_inserts_disjoint (k l : list byte) i off n :
  off + n ≤ i ∨ i + length k ≤ off →
  take n (drop off (list_inserts i k l)) = take n (drop off l).
Proof.
  intros Hd. apply list_eq. intros j.
  destruct (decide (j < n)) as [Hj|Hj].
  - rewrite !lookup_take_lt, !lookup_drop by done.
    destruct Hd as [Hd|Hd].
    + apply list_lookup_inserts_lt. lia.
    + apply list_lookup_inserts_ge. lia.
  - by rewrite !lookup_take_ge by lia.
Qed.

(** A block store at the start of a range that is read afterwards
    replaces the start of what is read. *)
Lemma take_drop_list_inserts_over (k l : list byte) i n :
  length k ≤ n → i + n ≤ length l →
  take n (drop i (list_inserts i k l))
  = k ++ drop (length k) (take n (drop i l)).
Proof.
  intros Hk Hl. rewrite list_inserts_at by lia.
  rewrite drop_app_length' by (rewrite length_take; lia).
  rewrite take_app, (take_ge k) by lia. f_equal.
  replace n with (length k + (n - length k)) at 2 by lia.
  by rewrite <- take_drop_commute, drop_drop.
Qed.

Lemma take_drop_two_inserts (R S l : list byte) i :
  length R = 32 → length S = 32 → i + 64 ≤ length l →
  take 64 (drop i (list_inserts (i + 32) S (list_inserts i R l))) = R ++ S.
Proof.
  intros HR HS Hl. rewrite (list_inserts_at R l) by lia.
  rewrite HR, (app_assoc (take i l) R).
  rewrite list_inserts_after by (rewrite length_app, length_take; lia).
  rewrite list_inserts_0_drop by (rewrite length_drop; lia).
  rewrite <- app_assoc.
  rewrite drop_app_length' by (rewrite length_take; lia).
  rewrite (app_assoc R S). apply take_app_length'.
  rewrite length_app. lia.
Qed.

Lemma for_loop_take (body : nat → list byte → list byte) m :
  (∀ i s, body i (take m s) = take m (body i s)) →
  ∀ count start s,
    for_loop start count body (take m s) = take m (for_loop start count body s).
Proof.
  intros Hbody. induction count as [|k IH]; intros start s; [done|].
  simpl. by rewrite Hbody, IH.
Qed.

(** *** Reading a buffer cell by cell *)

Lemma load_seq (src : list byte) n :
  n ≤ length src → load src <$> seq 0 n = take n src.
Proof.
  intros Hn. apply list_eq. intros i.
  rewrite list_lookup_fmap.
  destruct (decide (i < n)) as [Hi|Hi].
  - rewrite lookup_seq_lt, lookup_take_lt by done. simpl. unfold load.
    destruct (lookup_lt_is_Some_2 src i) as [x ->]; [lia|]. done.
  - rewrite lookup_seq_ge, lookup_take_ge by lia. done.
Qed.

Lemma insert_load_alter (f : byte → byte) i (h : list byte) :
  <[i := f (load h i)]> h = alter f i h.
Proof.
  revert i. induction h as [|x h IH]; intros [|i]; try done.
  simpl. f_equal. apply IH.
Qed.

(** ** The hex codec *)


(** *** One character, one byte *)

Lemma sscanf_two_digits c0 c1 d0 d1 rest :
  hex_value c0 = Some d0 → hex_value c1 = Some d1 →
  sscanf_02x (c0 :: c1 :: rest) = Some (16 * d0 + d1)%Z.
Proof.
  intros H0 H1. unfold sscanf_02x.
  destruct c0;
    (pose proof H0 as Hv; vm_compute in Hv; try discriminate Hv; clear Hv);
    cbn [skip_space isspace head]; rewrite H0; cbn [mbind option_bind];
    rewrite H1; done.
Qed.

Lemma sscanf_one_digit c0 d0 rest :
  hex_value c0 = Some d0 → head rest ≫= hex_value = None →
  sscanf_02x (c0 :: rest) = Some d0.
Proof.
  intros H0 H1. unfold sscanf_02x.
  destruct c0;
    (pose proof H0 as Hv; vm_compute in Hv; try discriminate Hv; clear Hv);
    cbn [skip_space isspace head]; rewrite H0; cbn [mbind option_bind];
    rewrite H1; done.
Qed.

Lemma hex_value_xdigits b :
  hex_value (xdigit (uchar_to_int b `div` 16)) = Some (uchar_to_int b `div` 16)%Z
  ∧ hex_value (xdigit (uchar_to_int b `mod` 16)) = Some (uchar_to_int b `mod` 16)%Z
  ∧ int_to_uchar (16 * (uchar_to_int b `div` 16) + uchar_to_int b `mod` 16) = b.
Proof. destruct b; vm_compute; done. Qed.

Lemma xdigit_lower b :
  is_lower_xdigit (xdigit (uchar_to_int b `div` 16)) = true
  ∧ is_lower_xdigit (xdigit (uchar_to_int b `mod` 16)) = true.
Proof. destruct b; vm_compute; done. Qed.

Lemma hex_value_tolower c : hex_value (tolower c) = hex_value c.
Proof. destruct c; vm_compute; done. Qed.

Lemma clamp_masks_low b :
  int_to_uchar (Z.land (uchar_to_int b) 248)
  = int_to_uchar (Z.clearbit (Z.clearbit (Z.clearbit (uchar_to_int b) 0) 1) 2).
Proof. destruct b; vm_compute; done. Qed.

Lemma clamp_masks_high b :
  int_to_uchar
    (Z.lor (uchar_to_int (int_to_uchar (Z.land (uchar_to_int b) 127))) 64)
  = int_to_uchar (Z.setbit (Z.clearbit (uchar_to_int b) 7) 6).
Proof. destruct b; vm_compute; done. Qed.


(** *** The printing loop *)

Lemma length_hexEncode bytes : length (Spec.hexEncode bytes) = 2 * length bytes.
Proof.
  unfold Spec.hexEncode. induction bytes as [|b bytes IH]; [done|].
  rewrite bind_cons, length_app, IH. simpl. lia.
Qed.

Lemma hexEncode_snoc bytes b :
  Spec.hexEncode (bytes ++ [b])
  = Spec.hexEncode bytes
    ++ [xdigit (uchar_to_int b `div` 16); xdigit (uchar_to_int b `mod` 16)].
Proof.
  unfold Spec.hexEncode. rewrite bind_app, bind_cons. f_equal.
Qed.

Lemma hexEncode_lower bytes :
  forallb is_lower_xdigit (Spec.hexEncode bytes) = true.
Proof.
  unfold Spec.hexEncode. induction bytes as [|b bytes IH]; [done|].
  destruct (xdigit_lower b) as [Hh Hl].
  rewrite bind_cons. simpl. by rewrite Hh, Hl, IH.
Qed.


Lemma print_hex_room n src out :
  2 * n + 1 ≤ length out →
  print_hex n src out
  = Spec.hexEncode (load src <$> seq 0 n) ++ print_hex_rest n out.
Proof.
  unfold print_hex. induction n as [|n IH]; intros Hn; [done|].
  rewrite for_loop_snoc, IH by lia. simpl "+".
  rewrite seq_S, fmap_app.
  change (load src <$> [0 + n]) with [load src n].
  rewrite hexEncode_snoc.
  rewrite list_inserts_after
    by (rewrite length_hexEncode, length_fmap, length_seq; lia).
  rewrite <- app_assoc. f_equal.
  assert (Hrest : ∃ x y z, print_hex_rest n out = x :: y :: z :: drop (2 * n + 3) out).
  { destruct n as [|n].
    - simpl. destruct out as [|x [|y [|z out]]]; simpl in Hn; try lia. eauto.
    - unfold print_hex_rest.
      remember (2 * Datatypes.S n + 1) as m.
      destruct (drop m out) as [|y [|z rest]] eqn:Hd;
        (apply (f_equal length) in Hd as Hlen; rewrite length_drop in Hlen;
         simpl in Hlen; try lia).
      exists x00, y, z. do 3 f_equal.
      replace (2 * Datatypes.S n + 3) with (m + 2) by lia.
      by rewrite <- drop_drop, Hd. }
  destruct Hrest as (x & y & z & ->).
  unfold sprintf_02x, print_hex_rest. simpl list_inserts. simpl app.
  do 3 f_equal. f_equal. lia.
Qed.

Lemma print_hex_digits n src out :
  2 * n ≤ length out →
  take (2 * n) (print_hex n src out) = Spec.hexEncode (load src <$> seq 0 n).
Proof.
  intros Hn.
  assert (Hout : out = take (length out) (out ++ [x00]))
    by (by rewrite take_app_length).
  rewrite Hout at 1. unfold print_hex.
  rewrite for_loop_take by (intros; apply list_inserts_take).
  fold (print_hex n src (out ++ [x00])).
  rewrite print_hex_room by (rewrite length_app; simpl; lia).
  rewrite take_take, Nat.min_l by lia.
  apply take_app_length'.
  rewrite length_hexEncode, length_fmap, length_seq. done.
Qed.

Lemma for_loop_length (body : nat → list byte → list byte) :
  (∀ i s, length (body i s) = length s) →
  ∀ count start s, length (for_loop start count body s) = length s.
Proof.
  intros Hbody. induction count as [|k IH]; intros start s; [done|].
  simpl. by rewrite IH, Hbody.
Qed.

Lemma print_hex_length n src out : length (print_hex n src out) = length out.
Proof. apply for_loop_length. intros. apply length_inserts. Qed.

(** *** The scanning loop on a text of hex digits *)


Lemma is_hex_text_spec n text :
  is_hex_text n text = true ↔
  length text = 2 * n ∧ ∀ i c, text !! i = Some c → is_Some (hex_value c).
Proof.
  unfold is_hex_text. rewrite andb_true_iff, bool_decide_eq_true.
  rewrite <- Is_true_true, forallb_True, Forall_lookup.
  split; intros [Hlen Hhex]; (split; [done|]); intros i c Hc;
    specialize (Hhex i c Hc).
  - by apply bool_decide_unpack in Hhex.
  - by apply bool_decide_pack.
Qed.

(** The text may be followed by anything ([rest]): a terminating NUL, or
    whatever the caller's buffer holds after the digits. *)
Lemma scan_valid_pair n text rest p :
  is_hex_text n text = true → p < n →
  ∃ b, Spec.hex_pair text p = Some b
       ∧ int_to_uchar <$> sscanf_02x (drop (2 * p) (text ++ rest)) = Some b.
Proof.
  rewrite is_hex_text_spec. intros [Hlen Hhex] Hp.
  destruct (lookup_lt_is_Some_2 text (2 * p)) as [c0 H0]; [lia|].
  destruct (lookup_lt_is_Some_2 text (2 * p + 1)) as [c1 H1]; [lia|].
  destruct (Hhex _ _ H0) as [d0 Hd0]. destruct (Hhex _ _ H1) as [d1 Hd1].
  exists (int_to_uchar (16 * d0 + d1)). split.
  - unfold Spec.hex_pair. rewrite H0, H1. simpl. rewrite Hd0, Hd1. done.
  - rewrite (drop_S _ c0) by (by apply lookup_app_l_Some).
    replace (Datatypes.S (2 * p)) with (2 * p + 1) by lia.
    rewrite (drop_S _ c1) by (by apply lookup_app_l_Some).
    by rewrite (sscanf_two_digits _ _ _ _ _ Hd0 Hd1).
Qed.

Lemma scan_valid_values n text rest (value0 : nat → Z) :
  is_hex_text n text = true →
  (λ i, int_to_uchar
          (default (value0 i) (sscanf_02x (drop (2 * i) (text ++ rest)))))
    <$> seq 0 n = hex_bytes text n.
Proof.
  intros Hhex. apply list_fmap_ext. intros i p Hp.
  apply lookup_seq in Hp as [-> Hp]. simpl.
  destruct (scan_valid_pair n text rest i Hhex Hp) as (b & -> & Hb).
  destruct (sscanf_02x _); [|done]. simpl in *. congruence.
Qed.

Lemma length_hex_bytes text n : length (hex_bytes text n) = n.
Proof. unfold hex_bytes. by rewrite length_fmap, length_seq. Qed.

Lemma scan_hex_forward n value0 text rest bytes :
  is_hex_text n text = true → length bytes = n →
  scan_hex n (λ i, i) value0 (text ++ rest) bytes = hex_bytes text n.
Proof.
  intros Hhex Hb. unfold scan_hex. cbv zeta.
  rewrite (fill_forward
    (λ i, int_to_uchar
            (default (value0 i) (sscanf_02x (drop (2 * i) (text ++ rest))))))
    by lia.
  rewrite drop_ge, app_nil_r by lia. by apply scan_valid_values.
Qed.

Lemma scan_hex_backward n value0 text rest bytes :
  is_hex_text n text = true → length bytes = n →
  scan_hex n (λ i, n - 1 - i) value0 (text ++ rest) bytes
  = reverse (hex_bytes text n).
Proof.
  intros Hhex Hb. unfold scan_hex. cbv zeta.
  rewrite (fill_backward
    (λ i, int_to_uchar
            (default (value0 i) (sscanf_02x (drop (2 * i) (text ++ rest))))))
    by done.
  f_equal. by apply scan_valid_values.
Qed.

Lemma scan_hex_length n idx value0 text bytes :
  length (scan_hex n idx value0 text bytes) = length bytes.
Proof. apply for_loop_length. intros. apply length_insert. Qed.

(** *** The specification's decoder on a text of hex digits *)

Lemma mapM_total {A B : Type} (f : A → option B) (F : A → B) l :
  (∀ x, x ∈ l → f x = Some (F x)) → mapM f l = Some (F <$> l).
Proof.
  induction l as [|x l IH]; intros Hf; [done|].
  simpl. rewrite (Hf x) by left. simpl.
  rewrite IH by (intros; apply Hf; by right). done.
Qed.

Lemma fmap_seq_reverse {B : Type} (F : nat → B) n :
  (λ i, F (n - 1 - i)) <$> seq 0 n = reverse (F <$> seq 0 n).
Proof.
  apply list_eq. intros i.
  destruct (decide (i < n)) as [Hi|Hi].
  - rewrite reverse_lookup by (rewrite length_fmap, length_seq; done).
    rewrite !list_lookup_fmap, length_fmap, length_seq.
    rewrite !lookup_seq_lt by lia. simpl. do 2 f_equal. lia.
  - rewrite !lookup_ge_None_2; [done| |];
      rewrite ?length_reverse, !length_fmap, length_seq; lia.
Qed.

Lemma hexDecode_valid n text reversed :
  is_hex_text n text = true →
  Spec.hexDecode n text reversed
  = Some (if reversed then reverse (hex_bytes text n) else hex_bytes text n).
Proof.
  intros Hhex. unfold Spec.hexDecode.
  pose proof (proj1 (is_hex_text_spec n text) Hhex) as [Hlen _].
  rewrite decide_True by done. unfold hex_bytes.
  destruct reversed.
  - rewrite <- (fmap_seq_reverse (λ p, default x00 (Spec.hex_pair text p))).
    apply mapM_total. intros i Hi. apply elem_of_seq in Hi.
    destruct (scan_valid_pair n text [] (n - 1 - i) Hhex) as (b & -> & _);
      [lia|done].
  - apply mapM_total. intros i Hi. apply elem_of_seq in Hi.
    destruct (scan_valid_pair n text [] i Hhex) as (b & -> & _); [lia|done].
Qed.

Lemma hexDecode_invalid n text reversed :
  is_hex_text n text = false → Spec.hexDecode n text reversed = None.
Proof.
  intros Hbad. unfold Spec.hexDecode. case_decide as Hlen; [|done].
  destruct (mapM _ _) as [bs|] eqn:Hm; [|done]. exfalso.
  apply mapM_Some_1 in Hm.
  assert (is_hex_text n text = true); [|congruence].
  apply is_hex_text_spec. split; [done|]. intros i c Hc.
  apply lookup_lt_Some in Hc as Hi.
  set (p := i / 2).
  set (q := if reversed then n - 1 - p else p).
  assert (Hp : p < n) by (subst p; apply Nat.Div0.div_lt_upper_bound; lia).
  assert (Hq : q < n) by (subst q; destruct reversed; lia).
  destruct (Forall2_lookup_l _ _ _ q q Hm) as (b & _ & Hb).
  { by apply lookup_seq_lt. }
  simpl in Hb.
  replace (if reversed then n - 1 - q else q) with p in Hb
    by (subst q; destruct reversed; lia).
  unfold Spec.hex_pair in Hb.
  destruct (text !! (2 * p)) as [c0|] eqn:H0; [|done].
  destruct (text !! (2 * p + 1)) as [c1|] eqn:H1; [|done]. simpl in Hb.
  destruct (hex_value c0) as [d0|] eqn:Hd0; [|done].
  destruct (hex_value c1) as [d1|] eqn:Hd1; [|done].
  pose proof (Nat.div_mod_eq i 2) as Hdm. fold p in Hdm.
  pose proof (Nat.mod_upper_bound i 2 ltac:(lia)) as Hm2.
  destruct (decide (i `mod` 2 = 0)) as [He|He].
  - replace i with (2 * p) in Hc by lia. rewrite H0 in Hc.
    injection Hc as <-. by rewrite Hd0.
  - replace i with (2 * p + 1) in Hc by lia. rewrite H1 in Hc.
    injection Hc as <-. by rewrite Hd1.
Qed.

(** ** The generator *)


Lemma clamp_in_place_spec h : clamp_in_place h = Spec.clamp h.
Proof.
  unfold clamp_in_place, Spec.clamp. cbv zeta.
  rewrite (insert_load_alter
    (λ b, int_to_uchar (Z.land (uchar_to_int b) 248)) 0 h).
  rewrite (insert_load_alter
    (λ b, int_to_uchar (Z.land (uchar_to_int b) 127)) 31).
  rewrite (insert_load_alter
    (λ b, int_to_uchar (Z.lor (uchar_to_int b) 64)) 31).
  rewrite list_alter_alter_eq.
  apply list_alter_ext.
  - intros b _. apply clamp_masks_high.
  - apply list_alter_ext; [|done]. intros b _. apply clamp_masks_low.
Qed.

Lemma length_clamp h : length (Spec.clamp h) = length h.
Proof. unfold Spec.clamp. by rewrite !length_alter. Qed.

Lemma take_clamp h : 32 ≤ length h → take 32 (Spec.clamp h) = Spec.clamp (take 32 h).
Proof.
  intros Hh. unfold Spec.clamp. by rewrite !take_alter_lt by lia.
Qed.

Lemma length_uninitialized g n : length (uninitialized g n) = n.
Proof. unfold uninitialized. by rewrite length_fmap, length_seq. Qed.

Lemma scan_private_key_tail g privateKey rest :
  is_hex_text 32 privateKey = true →
  scan_private_key g (privateKey ++ rest) = reverse (hex_bytes privateKey 32).
Proof.
  intros Hhex. unfold scan_private_key, privateKeyPartSize.
  apply scan_hex_backward; [done|]. apply length_uninitialized.
Qed.

Lemma scan_private_key_valid g privateKey :
  is_hex_text 32 privateKey = true →
  scan_private_key g privateKey = reverse (hex_bytes privateKey 32).
Proof.
  intros Hhex. rewrite <- (scan_private_key_tail g privateKey []) by done.
  by rewrite app_nil_r.
Qed.

Lemma scan_private_key_length g privateKey :
  length (scan_private_key g privateKey) = 32.
Proof.
  unfold scan_private_key. rewrite scan_hex_length. apply length_uninitialized.
Qed.

Lemma scan_public_key_tail g public_key rest bytes :
  is_hex_text 32 public_key = true → length bytes = 32 →
  scan_public_key g (public_key ++ rest) bytes = hex_bytes public_key 32.
Proof.
  intros Hhex Hb. unfold scan_public_key, publicKeySize.
  by apply scan_hex_forward.
Qed.

Lemma scan_public_key_valid g public_key bytes :
  is_hex_text 32 public_key = true → length bytes = 32 →
  scan_public_key g public_key bytes = hex_bytes public_key 32.
Proof.
  intros Hhex Hb.
  rewrite <- (scan_public_key_tail g public_key [] bytes) by done.
  by rewrite app_nil_r.
Qed.

Section Generator_facts.
Context `{Collaborators}.

Lemma createPublicKey_scalar_eq g private_key :
  createPublicKey_scalar g private_key
  = Spec.clamp (take 32 (Spec.Hash512 (scan_private_key g private_key))).
Proof.
  unfold createPublicKey_scalar, Spec.Hash512, privateKeyPartSize,
    privateKeySize. cbv zeta.
  rewrite clamp_in_place_spec.
  rewrite take_clamp by (rewrite keccak_length; lia).
  by rewrite (take_ge (scan_private_key _ _))
    by (rewrite scan_private_key_length; lia).
Qed.

Lemma Sign_eq g signature data public_key privateKey :
  length signature = 64 →
  Sign g signature data public_key privateKey
  = signature_of (scan_private_key g privateKey)
      (scan_public_key g public_key (scan_private_key g privateKey)) data.
Proof.
  intros Hsig.
  set (kBytes := scan_private_key g privateKey).
  set (Abytes := scan_public_key g public_key kBytes).
  unfold Sign, signature_of, Spec.Hash512.
  unfold privateKeyPartSize, privateKeySize, hash_512_Size, publicKeySize,
    signaturePartRAM.
  cbv zeta. fold kBytes. fold Abytes.
  assert (HkB : length kBytes = 32) by apply scan_private_key_length.
  assert (HA : length Abytes = 32).
  { unfold Abytes, scan_public_key. by rewrite scan_hex_length. }
  rewrite (take_ge kBytes) by lia.
  set (expanded := keccak kBytes 64).
  assert (Hexp : length expanded = 64) by apply keccak_length.
  rewrite (memcpy_two (drop 32 expanded) data _ 32 (length data))
    by (rewrite ?length_drop, ?length_uninitialized; lia).
  rewrite (take_ge (_ ++ data))
    by (rewrite length_app, length_drop; lia).
  assert (Hnonce : drop 32 expanded = take 32 (drop 32 expanded))
    by (rewrite take_ge; [done|rewrite length_drop; lia]).
  rewrite <- Hnonce.
  set (r64 := keccak (drop 32 expanded ++ data) 64).
  rewrite (take_list_inserts_0 (sc_reduce r64) r64 32)
    by (rewrite ?sc_reduce_length, ?keccak_length; unfold r64;
        rewrite ?keccak_length; lia).
  set (r := sc_reduce r64).
  set (encodedR := ge_p3_tobytes (ge_scalarmult_base r)).
  assert (HR : length encodedR = 32) by apply ge_p3_tobytes_length.
  rewrite (list_inserts_0_drop encodedR signature) by lia.
  rewrite HR.
  replace (memcpy (uninitialized g (length data + 32 + 32)) 0
             (encodedR ++ drop 32 signature) 32)
    with (memcpy (uninitialized g (length data + 32 + 32)) 0 encodedR 32)
    by (unfold memcpy; by rewrite take_app_length', (take_ge encodedR) by lia).
  rewrite (memcpy_three encodedR Abytes data _ 32 32 (length data))
    by (rewrite ?length_uninitialized; lia).
  rewrite (take_ge (encodedR ++ _))
    by (rewrite !length_app; lia).
  set (hram64 := keccak (encodedR ++ Abytes ++ data) 64).
  rewrite (take_list_inserts_0 (sc_reduce hram64) hram64 32)
    by (rewrite ?sc_reduce_length; unfold hram64; rewrite ?keccak_length; lia).
  unfold memcpy.
  rewrite (list_inserts_exact (take 32 expanded))
    by (rewrite length_take, length_uninitialized; lia).
  rewrite clamp_in_place_spec.
  rewrite (take_ge (Spec.clamp _))
    by (rewrite length_clamp, length_take; lia).
  rewrite (list_inserts_after encodedR) by exact HR.
  rewrite list_inserts_exact; [done|].
  rewrite sc_muladd_length, length_drop. lia.
Qed.

(** *** [Sign] on one store *)

Lemma Sign_at_eq g m signature data dataSize public_key privateKey :
  signature + 64 ≤ length m →
  data + dataSize ≤ length m →
  Sign_at g m signature data dataSize public_key privateKey
  = let kBytes := scan_private_key g (drop privateKey m) in
    let r :=
      sc_reduce
        (Spec.Hash512
           (take 32 (drop 32 (Spec.Hash512 kBytes))
            ++ take dataSize (drop data m))) in
    let encodedR := ge_p3_tobytes (ge_scalarmult_base r) in
    let m1 := list_inserts signature encodedR m in
    let hram :=
      sc_reduce
        (Spec.Hash512
           (encodedR ++ scan_public_key g (drop public_key m1) kBytes
            ++ take dataSize (drop data m1))) in
    list_inserts (signature + 32)
      (sc_muladd hram (Spec.clamp (take 32 (Spec.Hash512 kBytes))) r) m1.
Proof.
  intros Hsig Hdata. cbv zeta.
  set (kBytes := scan_private_key g (drop privateKey m)).
  unfold Sign_at, Spec.Hash512.
  unfold privateKeyPartSize, privateKeySize, hash_512_Size, publicKeySize,
    signaturePartRAM.
  cbv zeta. fold kBytes.
  assert (HkB : length kBytes = 32) by apply scan_private_key_length.
  rewrite (take_ge kBytes) by lia.
  set (expanded := keccak kBytes 64).
  assert (Hexp : length expanded = 64) by apply keccak_length.
  rewrite (memcpy_take _ 32 (drop data m) dataSize).
  set (message := take dataSize (drop data m)).
  assert (Hmsg : length message = dataSize).
  { unfold message. rewrite length_take, length_drop. lia. }
  rewrite (memcpy_two (drop 32 expanded) message _ 32 dataSize)
    by (rewrite ?length_drop, ?length_uninitialized; lia).
  rewrite (take_ge (_ ++ message))
    by (rewrite length_app, length_drop; lia).
  assert (Hnonce : drop 32 expanded = take 32 (drop 32 expanded))
    by (rewrite take_ge; [done|rewrite length_drop; lia]).
  rewrite <- Hnonce.
  set (r64 := keccak (drop 32 expanded ++ message) 64).
  rewrite (take_list_inserts_0 (sc_reduce r64) r64 32)
    by (rewrite ?sc_reduce_length, ?keccak_length; unfold r64;
        rewrite ?keccak_length; lia).
  set (r := sc_reduce r64).
  set (encodedR := ge_p3_tobytes (ge_scalarmult_base r)).
  assert (HR : length encodedR = 32) by apply ge_p3_tobytes_length.
  set (m1 := list_inserts signature encodedR m).
  assert (Hm1 : length m1 = length m) by apply length_inserts.
  set (Abytes := scan_public_key g (drop public_key m1) kBytes).
  assert (HA : length Abytes = 32).
  { unfold Abytes, scan_public_key. by rewrite scan_hex_length. }
  rewrite (memcpy_take _ 0 (drop signature m1) 32).
  replace (take 32 (drop signature m1)) with encodedR
    by (unfold m1; by rewrite (take_drop_list_inserts_same _ _ _ 32) by lia).
  rewrite (memcpy_take _ (32 + 32) (drop data m1) dataSize).
  set (message1 := take dataSize (drop data m1)).
  assert (Hmsg1 : length message1 = dataSize).
  { unfold message1. rewrite length_take, length_drop. lia. }
  rewrite (memcpy_three encodedR Abytes message1 _ 32 32 dataSize)
    by (rewrite ?length_uninitialized; lia).
  rewrite (take_ge (encodedR ++ _))
    by (rewrite !length_app; lia).
  set (hram64 := keccak (encodedR ++ Abytes ++ message1) 64).
  rewrite (take_list_inserts_0 (sc_reduce hram64) hram64 32)
    by (rewrite ?sc_reduce_length; unfold hram64; rewrite ?keccak_length; lia).
  unfold memcpy.
  rewrite (list_inserts_exact (take 32 expanded))
    by (rewrite length_take, length_uninitialized; lia).
  rewrite clamp_in_place_spec.
  rewrite (take_ge (Spec.clamp _))
    by (rewrite length_clamp, length_take; lia).
  done.
Qed.

End Generator_facts.

Lemma print_hex_text n src out :
  length src = n → 2 * n ≤ length out →
  take (2 * n) (print_hex n src out) = Spec.hexEncode src.
Proof.
  intros Hsrc Hout. rewrite print_hex_digits by done.
  rewrite load_seq by lia. by rewrite take_ge by lia.
Qed.


Lemma hexEncode_lookup bytes p b :
  bytes !! p = Some b →
  Spec.hexEncode bytes !! (2 * p) = Some (xdigit (uchar_to_int b `div` 16))
  ∧ Spec.hexEncode bytes !! (2 * p + 1)
    = Some (xdigit (uchar_to_int b `mod` 16)).
Proof.
  unfold Spec.hexEncode. revert p.
  induction bytes as [|x bytes IH]; intros p Hp; [done|].
  rewrite bind_cons. destruct p as [|p].
  - injection Hp as ->. done.
  - replace (2 * Datatypes.S p) with (Datatypes.S (Datatypes.S (2 * p)))
      by lia.
    apply (IH p Hp).
Qed.

Lemma hex_pair_hexEncode bytes p b :
  bytes !! p = Some b → Spec.hex_pair (Spec.hexEncode bytes) p = Some b.
Proof.
  intros Hp. destruct (hexEncode_lookup bytes p b Hp) as [H0 H1].
  destruct (hex_value_xdigits b) as (Hd0 & Hd1 & Hb).
  unfold Spec.hex_pair. rewrite H0, H1. simpl. rewrite Hd0, Hd1. simpl.
  by rewrite Hb.
Qed.

Lemma is_hex_text_hexEncode bytes :
  is_hex_text (length bytes) (Spec.hexEncode bytes) = true.
Proof.
  unfold is_hex_text. rewrite andb_true_iff, bool_decide_eq_true. split.
  - apply length_hexEncode.
  - unfold Spec.hexEncode. induction bytes as [|b bytes IH]; [done|].
    rewrite bind_cons. destruct (hex_value_xdigits b) as (Hd0 & Hd1 & _).
    simpl. unfold isxdigit at 1 2. rewrite Hd0, Hd1. simpl. apply IH.
Qed.

Lemma hex_bytes_hexEncode bytes :
  hex_bytes (Spec.hexEncode bytes) (length bytes) = bytes.
Proof.
  unfold hex_bytes. apply list_eq. intros p. rewrite list_lookup_fmap.
  destruct (bytes !! p) as [b|] eqn:Hp.
  - rewrite lookup_seq_lt by (by apply lookup_lt_Some in Hp). simpl.
    by rewrite (hex_pair_hexEncode _ _ _ Hp).
  - by rewrite lookup_seq_ge by (by apply lookup_ge_None in Hp).
Qed.

(** *** Letter case *)

Lemma hex_value_modulo_case t1 t2 :
  same_modulo_case t1 t2 → hex_value <$> t1 = hex_value <$> t2.
Proof.
  unfold same_modulo_case. intros Hcase.
  assert (Hlow : ∀ t : list byte,
    hex_value <$> t = hex_value <$> (tolower <$> t)).
  { intros t. rewrite <- list_fmap_compose. apply list_fmap_ext.
    intros i c _. simpl. by rewrite hex_value_tolower. }
  by rewrite (Hlow t1), (Hlow t2), Hcase.
Qed.

Lemma lookup_hex_value (text : list byte) i :
  text !! i ≫= hex_value = (hex_value <$> text) !! i ≫= id.
Proof. rewrite list_lookup_fmap. by destruct (text !! i). Qed.

Lemma hex_pair_modulo_case t1 t2 p :
  same_modulo_case t1 t2 → Spec.hex_pair t1 p = Spec.hex_pair t2 p.
Proof.
  intros Hcase%hex_value_modulo_case.
  assert (Hpair : ∀ t : list byte, Spec.hex_pair t p
    = d0 ← (hex_value <$> t) !! (2 * p) ≫= id;
      d1 ← (hex_value <$> t) !! (2 * p + 1) ≫= id;
      Some (int_to_uchar (16 * d0 + d1))).
  { intros t. rewrite <- !lookup_hex_value. unfold Spec.hex_pair.
    destruct (t !! (2 * p)) as [c0|]; [|done].
    destruct (t !! (2 * p + 1)) as [c1|]; simpl; [done|].
    by destruct (hex_value c0). }
  by rewrite (Hpair t1), (Hpair t2), Hcase.
Qed.

Lemma hex_bytes_modulo_case t1 t2 n :
  same_modulo_case t1 t2 → hex_bytes t1 n = hex_bytes t2 n.
Proof.
  intros Hcase. unfold hex_bytes. apply list_fmap_ext. intros i p _. simpl.
  by rewrite (hex_pair_modulo_case t1 t2 p Hcase).
Qed.

Lemma is_hex_text_modulo_case t1 t2 n :
  same_modulo_case t1 t2 → is_hex_text n t1 = true → is_hex_text n t2 = true.
Proof.
  intros Hcase. rewrite !is_hex_text_spec. intros [Hlen Hhex].
  pose proof (hex_value_modulo_case t1 t2 Hcase) as Hval.
  split.
  - apply (f_equal length) in Hval. rewrite !length_fmap in Hval. lia.
  - intros i c Hc.
    pose proof (f_equal (λ l, l !! i) Hval) as Hi. simpl in Hi.
    rewrite !list_lookup_fmap, Hc in Hi.
    destruct (t1 !! i) as [c1|] eqn:H1; [|done].
    simpl in Hi. injection Hi as Hi. rewrite <- Hi. by apply (Hhex i).
Qed.

(** *** One round of the scanning loop, on any text *)

Lemma scan_hex_value text i c0 d0 (value0 : Z) :
  text !! (2 * i) = Some c0 → hex_value c0 = Some d0 →
  default value0 (sscanf_02x (drop (2 * i) text))
  = match text !! (2 * i + 1) ≫= hex_value with
    | Some d1 => (16 * d0 + d1)%Z
    | None => d0
    end.
Proof.
  intros H0 Hd0. rewrite (drop_S _ _ _ H0).
  assert (Hhead : head (drop (Datatypes.S (2 * i)) text) = text !! (2 * i + 1)).
  { rewrite head_lookup, lookup_drop. f_equal. lia. }
  destruct (text !! (2 * i + 1) ≫= hex_value) as [d1|] eqn:H1.
  - destruct (drop (Datatypes.S (2 * i)) text) as [|c1 rest] eqn:Hd.
    + rewrite <- Hhead in H1. done.
    + rewrite <- Hhead in H1. simpl in H1.
      by rewrite (sscanf_two_digits _ _ _ _ _ Hd0 H1).
  - rewrite (sscanf_one_digit _ _ _ Hd0); [done|]. by rewrite Hhead.
Qed.

(** *** One cell of the scanned buffer, on any text *)

Lemma scan_hex_forward_lookup n value0 text bytes i :
  i < n → n ≤ length bytes →
  scan_hex n (λ i, i) value0 text bytes !! i
  = Some (int_to_uchar
            (default (value0 i) (sscanf_02x (drop (2 * i) text)))).
Proof.
  intros Hi Hn. unfold scan_hex. cbv zeta.
  rewrite (fill_forward
    (λ i, int_to_uchar (default (value0 i) (sscanf_02x (drop (2 * i) text)))))
    by done.
  rewrite lookup_app_l by (by rewrite length_fmap, length_seq).
  by rewrite list_lookup_fmap, lookup_seq_lt.
Qed.

Lemma scan_hex_backward_lookup n value0 text bytes i :
  i < n → length bytes = n →
  scan_hex n (λ i, n - 1 - i) value0 text bytes !! (n - 1 - i)
  = Some (int_to_uchar
            (default (value0 i) (sscanf_02x (drop (2 * i) text)))).
Proof.
  intros Hi Hn. unfold scan_hex. cbv zeta.
  rewrite (fill_backward
    (λ i, int_to_uchar (default (value0 i) (sscanf_02x (drop (2 * i) text)))))
    by done.
  rewrite reverse_lookup by (rewrite length_fmap, length_seq; lia).
  rewrite length_fmap, length_seq.
  replace (n - Datatypes.S (n - 1 - i)) with i by lia.
  by rewrite list_lookup_fmap, lookup_seq_lt.
Qed.

(** ** The hex codec: claims C3 and C7 *)

(** C3, as the code has it.  The scanning loops report nothing: whatever
    the text, they fill their 32 cells.  Where the character pair number
    [i] starts with a hex digit, the cell it fills holds [16 * hi + lo]
    when the second character is a hex digit too, and the first digit
    alone when it is not or when the text ends there. *)
Theorem scan_stores_what_sscanf_reads g text bytes i c0 d0 :
  i < 32 →
  length bytes = 32 →
  text !! (2 * i) = Some c0 →
  hex_value c0 = Some d0 →
  length (scan_private_key g text) = 32
  ∧ scan_private_key g text !! (31 - i)
    = Some (int_to_uchar
              match text !! (2 * i + 1) ≫= hex_value with
              | Some d1 => 16 * d0 + d1
              | None => d0
              end)
  ∧ scan_public_key g text bytes !! i
    = Some (int_to_uchar
              match text !! (2 * i + 1) ≫= hex_value with
              | Some d1 => 16 * d0 + d1
              | None => d0
              end).
Proof.
  intros Hi Hb H0 Hd0. split; [apply scan_private_key_length|]. split.
  - unfold scan_private_key, privateKeyPartSize.
    rewrite (scan_hex_backward_lookup 32) by (done || apply length_uninitialized).
    by rewrite (scan_hex_value text i c0 d0).
  - unfold scan_public_key, publicKeySize.
    rewrite (scan_hex_forward_lookup 32) by lia.
    by rewrite (scan_hex_value text i c0 d0).
Qed.

(** C3, as the specification has it, fails.  A private key text of 63
    characters and one whose second character is no hex digit are decode
    errors for the specification's decoder; the scanning loop takes each for
    a well-formed 64-character text and fills the same 32 bytes. *)
Lemma decode_errors_go_unreported :
  (length Sample.short_private_key = 63
   ∧ Spec.hexDecode 32 Sample.short_private_key true = None
   ∧ is_hex_text 32 Sample.padded_private_key = true
   ∧ scan_private_key Sample.stale Sample.short_private_key
     = scan_private_key Sample.stale Sample.padded_private_key)
  ∧ (length Sample.odd_private_key = 64
     ∧ Spec.hexDecode 32 Sample.odd_private_key true = None
     ∧ is_hex_text 32 Sample.even_private_key = true
     ∧ scan_private_key Sample.stale Sample.odd_private_key
       = scan_private_key Sample.stale Sample.even_private_key).
Proof. vm_compute. repeat split. Qed.


(** ** The four functions on well-formed input *)

Section Generator_results.
Context `{Collaborators}.

Lemma createPrivateKey_eq g seed out_private_key :
  64 ≤ length out_private_key →
  createPrivateKey g seed out_private_key
  = Spec.hexEncode (take 32 (Spec.Hash512 (take 32 seed)))
    ++ drop 64 out_private_key.
Proof.
  intros Hout. unfold createPrivateKey, Spec.Hash512, seedSize.
  change (privateKeySize / 2) with 32. unfold privateKeySize. cbv zeta.
  set (private_key := keccak (take 32 seed) 64).
  set (converted := print_hex 32 private_key (uninitialized g 64)).
  assert (Hconv : converted = Spec.hexEncode (take 32 private_key)).
  { rewrite <- (take_ge converted 64)
      by (unfold converted; by rewrite print_hex_length, length_uninitialized).
    unfold converted.
    rewrite (print_hex_digits 32) by (by rewrite length_uninitialized).
    rewrite load_seq; [done|]. unfold private_key. rewrite keccak_length. lia. }
  rewrite (fill_forward (load converted)) by lia.
  rewrite load_seq by (rewrite Hconv, length_hexEncode, length_take;
                       unfold private_key; rewrite keccak_length; lia).
  rewrite take_ge; [by rewrite Hconv|].
  rewrite Hconv, length_hexEncode, length_take. lia.
Qed.

Lemma createPublicKey_eq g public_key private_key :
  64 ≤ length public_key →
  take 64 (createPublicKey g public_key private_key)
  = Spec.hexEncode
      (ge_p3_tobytes
         (ge_scalarmult_base (createPublicKey_scalar g private_key))).
Proof.
  intros Hout. unfold createPublicKey, publicKeySize. cbv zeta.
  apply (print_hex_text 32); [apply ge_p3_tobytes_length|done].
Qed.

Lemma SHA256_hash_eq out input :
  64 ≤ length out → take 64 (SHA256_hash out input) = Spec.digest input.
Proof.
  intros Hout. unfold SHA256_hash, Spec.digest, Spec.Hash256, hash_256_Size.
  cbv zeta. rewrite (take_ge input) by lia.
  apply (print_hex_text 32); [apply keccak_length|done].
Qed.

Lemma Sign_valid g signature data public_key privateKey :
  is_hex_text 32 privateKey = true → is_hex_text 32 public_key = true →
  length signature = 64 →
  Sign g signature data public_key privateKey
  = signature_of (reverse (hex_bytes privateKey 32))
      (hex_bytes public_key 32) data.
Proof.
  intros Hpriv Hpub Hsig. rewrite Sign_eq by done.
  rewrite scan_private_key_valid by done.
  rewrite scan_public_key_valid;
    [done|done|by rewrite length_reverse, length_hex_bytes].
Qed.

Lemma spec_sign_valid data public_key privateKey :
  is_hex_text 32 privateKey = true → is_hex_text 32 public_key = true →
  Spec.sign data public_key privateKey
  = Some (signature_of (reverse (hex_bytes privateKey 32))
            (hex_bytes public_key 32) data).
Proof.
  intros Hpriv Hpub. unfold Spec.sign.
  rewrite (hexDecode_valid 32 privateKey true Hpriv).
  rewrite (hexDecode_valid 32 public_key false Hpub). done.
Qed.

Lemma spec_scalar_valid privateKey :
  is_hex_text 32 privateKey = true →
  Spec.scalar privateKey
  = Some (Spec.clamp
            (take 32 (Spec.Hash512 (reverse (hex_bytes privateKey 32))))).
Proof.
  intros Hpriv. unfold Spec.scalar.
  by rewrite (hexDecode_valid 32 privateKey true Hpriv).
Qed.

Lemma take_signature_of kBytes Abytes data :
  take 32 (signature_of kBytes Abytes data)
  = ge_p3_tobytes
      (ge_scalarmult_base
         (sc_reduce
            (Spec.Hash512 (take 32 (drop 32 (Spec.Hash512 kBytes)) ++ data)))).
Proof.
  unfold signature_of. cbv zeta.
  apply take_app_length'. by rewrite ge_p3_tobytes_length.
Qed.


(** On buffers that the first half of the signature buffer does not
    overlap, a call on one store signs as [signature_of] says. *)
Lemma Sign_at_separate g m signature data dataSize public_key privateKey :
  is_hex_text 32 (take 64 (drop privateKey m)) = true →
  is_hex_text 32 (take 64 (drop public_key m)) = true →
  signature + 64 ≤ length m →
  data + dataSize ≤ length m →
  signature + 32 ≤ data ∨ data + dataSize ≤ signature →
  signature + 32 ≤ public_key ∨ public_key + 64 ≤ signature →
  take 64
    (drop signature
       (Sign_at g m signature data dataSize public_key privateKey))
  = signature_of (reverse (hex_bytes (take 64 (drop privateKey m)) 32))
      (hex_bytes (take 64 (drop public_key m)) 32)
      (take dataSize (drop data m)).
Proof.
  intros Hpriv Hpub Hsig Hdata Hd Hp.
  rewrite Sign_at_eq by done. cbv zeta.
  assert (Hk : scan_private_key g (drop privateKey m)
               = reverse (hex_bytes (take 64 (drop privateKey m)) 32)).
  { rewrite <- (take_drop 64 (drop privateKey m)) at 1.
    by apply scan_private_key_tail. }
  rewrite Hk.
  set (kBytes := reverse (hex_bytes (take 64 (drop privateKey m)) 32)).
  set (message := take dataSize (drop data m)).
  set (encodedR := ge_p3_tobytes _).
  assert (HR : length encodedR = 32) by apply ge_p3_tobytes_length.
  rewrite (take_drop_list_inserts_disjoint encodedR m signature data dataSize)
    by (rewrite HR; lia).
  fold message.
  rewrite <- (take_drop 64 (drop public_key (list_inserts _ encodedR m))).
  rewrite (take_drop_list_inserts_disjoint encodedR m signature public_key 64)
    by (rewrite HR; lia).
  rewrite scan_public_key_tail
    by (done || unfold kBytes; by rewrite length_reverse, length_hex_bytes).
  rewrite take_drop_two_inserts
    by (done || apply sc_muladd_length).
  done.
Qed.

(** Hence it stores what the call on separate buffers returns. *)
Lemma Sign_at_Sign g g' m buffer signature data dataSize public_key
    privateKey :
  is_hex_text 32 (take 64 (drop privateKey m)) = true →
  is_hex_text 32 (take 64 (drop public_key m)) = true →
  signature + 64 ≤ length m →
  data + dataSize ≤ length m →
  signature + 32 ≤ data ∨ data + dataSize ≤ signature →
  signature + 32 ≤ public_key ∨ public_key + 64 ≤ signature →
  length buffer = 64 →
  take 64
    (drop signature
       (Sign_at g m signature data dataSize public_key privateKey))
  = Sign g' buffer (take dataSize (drop data m))
      (take 64 (drop public_key m)) (take 64 (drop privateKey m)).
Proof.
  intros. rewrite Sign_at_separate by done. by rewrite Sign_valid by done.
Qed.

(** The second half of the signature is [sc_muladd] of the second hash,
    the scalar of [createPublicKey] and the nonce. *)
Lemma Sign_second_half g signature data public_key privateKey :
  length signature = 64 →
  drop 32 (Sign g signature data public_key privateKey)
  = sc_muladd
      (sc_reduce
         (Spec.Hash512
            (take 32 (Sign g signature data public_key privateKey)
             ++ scan_public_key g public_key (scan_private_key g privateKey)
             ++ data)))
      (createPublicKey_scalar g privateKey)
      (sc_reduce
         (Spec.Hash512
            (take 32 (drop 32 (Spec.Hash512 (scan_private_key g privateKey)))
             ++ data))).
Proof.
  intros Hsig. rewrite Sign_eq by done. rewrite take_signature_of.
  rewrite createPublicKey_scalar_eq. unfold signature_of. cbv zeta.
  apply drop_app_length'. by rewrite ge_p3_tobytes_length.
Qed.

(** ** The claims *)

(** C1, as the code has it.  For every message and every pair of
    64-character hex key texts held in buffers that the first 32 bytes of
    the signature buffer do not overlap, [Sign] fills the 64-byte
    signature buffer with [encodedR || S], where [r], [R], [hram] and [S]
    are computed as §4.4 of the specification lists them, from the private
    key text decoded in reverse and the public key text decoded in
    order. *)
Theorem Sign_at_refines_spec g m signature data dataSize public_key
    privateKey :
  is_hex_text 32 (take 64 (drop privateKey m)) = true →
  is_hex_text 32 (take 64 (drop public_key m)) = true →
  signature + 64 ≤ length m →
  data + dataSize ≤ length m →
  signature + 32 ≤ data ∨ data + dataSize ≤ signature →
  signature + 32 ≤ public_key ∨ public_key + 64 ≤ signature →
  Spec.sign (take dataSize (drop data m)) (take 64 (drop public_key m))
    (take 64 (drop privateKey m))
  = Some (take 64
            (drop signature
               (Sign_at g m signature data dataSize public_key privateKey))).
Proof.
  intros Hpriv Hpub Hsig Hdata Hd Hp.
  rewrite spec_sign_valid by done. by rewrite Sign_at_separate by done.
Qed.

(** C2.  For every 64-character hex private key text, [createPublicKey]
    prints the 64 characters §4.3 of the specification derives: the text
    is decoded in reverse, hashed to 64 bytes, the first half clamped,
    multiplied by the base point, encoded, and printed in hex in order. *)
Theorem createPublicKey_refines_spec g public_key private_key :
  is_hex_text 32 private_key = true →
  64 ≤ length public_key →
  Spec.derivePublicKey private_key
  = Some (take 64 (createPublicKey g public_key private_key)).
Proof.
  intros Hpriv Hout. unfold Spec.derivePublicKey.
  rewrite spec_scalar_valid by done.
  cbv beta iota delta [mbind option_bind].
  rewrite createPublicKey_eq by done.
  by rewrite createPublicKey_scalar_eq, scan_private_key_valid by done.
Qed.

(** C4.  For every 64-character hex private key text, the scalar
    [createPublicKey] multiplies the base point by and the second factor
    of the [sc_muladd] that gives bytes [32:64] of the signature are the
    same 32 bytes, the clamped first half of the hash of the reversed key
    bytes. *)
Theorem clamped_scalars_agree g g' public_key signature data public_key_text
    private_key :
  is_hex_text 32 private_key = true →
  64 ≤ length public_key →
  length signature = 64 →
  Spec.scalar private_key = Some (createPublicKey_scalar g private_key)
  ∧ take 64 (createPublicKey g public_key private_key)
    = Spec.hexEncode
        (ge_p3_tobytes
           (ge_scalarmult_base (createPublicKey_scalar g private_key)))
  ∧ drop 32 (Sign g' signature data public_key_text private_key)
    = sc_muladd
        (sc_reduce
           (Spec.Hash512
              (take 32 (Sign g' signature data public_key_text private_key)
               ++ scan_public_key g' public_key_text
                    (scan_private_key g' private_key)
               ++ data)))
        (createPublicKey_scalar g private_key)
        (sc_reduce
           (Spec.Hash512
              (take 32
                 (drop 32 (Spec.Hash512 (scan_private_key g' private_key)))
               ++ data))).
Proof.
  intros Hpriv Hout Hsig. split; [|split].
  - rewrite spec_scalar_valid, createPublicKey_scalar_eq by done.
    by rewrite scan_private_key_valid.
  - by apply createPublicKey_eq.
  - rewrite Sign_second_half by done.
    replace (createPublicKey_scalar g' private_key)
      with (createPublicKey_scalar g private_key); [done|].
    rewrite !createPublicKey_scalar_eq.
    by rewrite !scan_private_key_valid by done.
Qed.



(** C8.  For every input, the empty one included, [SHA256_hash] prints
    the hex encoding of the 32-byte digest of the input: 64 lowercase hex
    digits.  It is a total function of its input alone. *)
Theorem SHA256_hash_digest out input :
  64 ≤ length out →
  take 64 (SHA256_hash out input) = Spec.hexEncode (Spec.Hash256 input)
  ∧ length (take 64 (SHA256_hash out input)) = 64
  ∧ forallb is_lower_xdigit (take 64 (SHA256_hash out input)) = true.
Proof.
  intros Hout. rewrite SHA256_hash_eq by done. unfold Spec.digest.
  split; [done|]. rewrite length_hexEncode, hexEncode_lower.
  unfold Spec.Hash256. by rewrite keccak_length.
Qed.

(** C9.  The first 32 bytes of the signature, the encoded point [R], do
    not depend on the public key text: with the same message and the same
    64-character hex private key text, any two public key texts give the
    same bytes [0:32]. *)
Theorem Sign_R_ignores_public_key g1 g2 signature1 signature2 data
    public_key1 public_key2 privateKey :
  is_hex_text 32 privateKey = true →
  length signature1 = 64 →
  length signature2 = 64 →
  take 32 (Sign g1 signature1 data public_key1 privateKey)
  = take 32 (Sign g2 signature2 data public_key2 privateKey).
Proof.
  intros Hpriv Hs1 Hs2. rewrite !Sign_eq by done.
  rewrite !take_signature_of. by rewrite !scan_private_key_valid by done.
Qed.

(** C10.  Hex decoding ignores letter case: two 64-character hex private
    key texts that differ only in case decode to the same bytes and give
    the same public key text, and with two public key texts that differ
    only in case they give the same signature.  Printing always uses
    lowercase digits. *)
Theorem hex_decoding_ignores_case g public_key signature data
    private_key1 private_key2 public_key1 public_key2 :
  is_hex_text 32 private_key1 = true →
  is_hex_text 32 public_key1 = true →
  same_modulo_case private_key1 private_key2 →
  same_modulo_case public_key1 public_key2 →
  64 ≤ length public_key →
  scan_private_key g private_key1 = scan_private_key g private_key2
  ∧ createPublicKey g public_key private_key1
    = createPublicKey g public_key private_key2
  ∧ Sign g signature data public_key1 private_key1
    = Sign g signature data public_key2 private_key2
  ∧ forallb is_lower_xdigit
      (take 64 (createPublicKey g public_key private_key1)) = true.
Proof.
  intros Hpriv1 Hpub1 Hpriv Hpub Hout.
  pose proof (is_hex_text_modulo_case _ _ _ Hpriv Hpriv1) as Hpriv2.
  pose proof (is_hex_text_modulo_case _ _ _ Hpub Hpub1) as Hpub2.
  assert (Hk : scan_private_key g private_key1
               = scan_private_key g private_key2).
  { rewrite !scan_private_key_valid by done.
    by rewrite (hex_bytes_modulo_case _ _ 32 Hpriv). }
  assert (HA : scan_public_key g public_key1 (scan_private_key g private_key2)
               = scan_public_key g public_key2
                   (scan_private_key g private_key2)).
  { rewrite !scan_public_key_valid
      by (done || apply scan_private_key_length).
    apply (hex_bytes_modulo_case _ _ 32 Hpub). }
  split; [done|]. split; [|split].
  - unfold createPublicKey, createPublicKey_scalar. by rewrite Hk.
  - unfold Sign. by rewrite Hk, HA.
  - rewrite createPublicKey_eq by done. apply hexEncode_lower.
Qed.

End Generator_results.

(** ** The theorems at the sample inputs *)

Lemma Sign_at_refines_spec_witness :
  is_hex_text 32 (take 64 (drop 132 Sample.store)) = true
  ∧ is_hex_text 32 (take 64 (drop 67 Sample.store)) = true
  ∧ 0 + 64 ≤ length Sample.store
  ∧ 64 + 3 ≤ length Sample.store
  ∧ (0 + 32 ≤ 64 ∨ 64 + 3 ≤ 0)
  ∧ (0 + 32 ≤ 67 ∨ 67 + 64 ≤ 0)
  ∧ @Spec.sign Sample.mixing (take 3 (drop 64 Sample.store))
      (take 64 (drop 67 Sample.store)) (take 64 (drop 132 Sample.store))
    = Some (take 64
              (drop 0
                 (@Sign_at Sample.mixing Sample.stale Sample.store
                    0 64 3 67 132))).
Proof.
  split; [reflexivity|]. split; [reflexivity|]. split; [simpl; lia|].
  split; [simpl; lia|]. split; [left; lia|]. split; [left; lia|].
  apply (@Sign_at_refines_spec Sample.mixing);
    [reflexivity|reflexivity|simpl; lia|simpl; lia|left; lia|left; lia].
Defined.

(** C1, as the specification has it, fails when the message is signed in
    place.  The store holds a 64-byte message at offset 0 and the two key
    texts after it; with the signature buffer at offset 0 too, [R] replaces
    the first 32 bytes of the message before the second hash reads it, and
    the 64 bytes stored are not the signature of the message. *)
Lemma Sign_in_place_differs :
  is_hex_text 32 (take 64 (drop 129 Sample.store_in_place)) = true
  ∧ is_hex_text 32 (take 64 (drop 64 Sample.store_in_place)) = true
  ∧ 0 + 64 ≤ length Sample.store_in_place
  ∧ @Spec.sign Sample.mixing (take 64 (drop 0 Sample.store_in_place))
      (take 64 (drop 64 Sample.store_in_place))
      (take 64 (drop 129 Sample.store_in_place))
    ≠ Some (take 64
              (drop 0
                 (@Sign_at Sample.mixing Sample.stale Sample.store_in_place
                    0 0 64 64 129))).
Proof.
  split; [reflexivity|]. split; [reflexivity|]. split; [simpl; lia|].
  vm_compute. discriminate.
Qed.

Lemma createPublicKey_refines_spec_witness :
  is_hex_text 32 Sample.private_key = true
  ∧ 64 ≤ length (replicate 65 x55)
  ∧ @Spec.derivePublicKey Sample.collaborators Sample.private_key
    = Some (take 64 (@createPublicKey Sample.collaborators Sample.stale
                       (replicate 65 x55) Sample.private_key)).
Proof.
  split; [reflexivity|]. split; [simpl; lia|].
  apply (@createPublicKey_refines_spec Sample.collaborators);
    [reflexivity|simpl; lia].
Defined.

Lemma scan_stores_what_sscanf_reads_witness :
  31 < 32
  ∧ length (replicate 32 x55) = 32
  ∧ Sample.short_private_key !! (2 * 31) = Some "f"
  ∧ hex_value "f" = Some 15%Z
  ∧ length (scan_private_key Sample.stale Sample.short_private_key) = 32
  ∧ scan_private_key Sample.stale Sample.short_private_key !! (31 - 31)
    = Some (int_to_uchar
              match Sample.short_private_key !! (2 * 31 + 1) ≫= hex_value with
              | Some d1 => 16 * 15 + d1
              | None => 15
              end)
  ∧ scan_public_key Sample.stale Sample.short_private_key
      (replicate 32 x55) !! 31
    = Some (int_to_uchar
              match Sample.short_private_key !! (2 * 31 + 1) ≫= hex_value with
              | Some d1 => 16 * 15 + d1
              | None => 15
              end).
Proof.
  split; [lia|]. split; [reflexivity|]. split; [reflexivity|].
  split; [reflexivity|].
  apply (scan_stores_what_sscanf_reads Sample.stale Sample.short_private_key
           (replicate 32 x55) 31 "f" 15%Z); [lia|reflexivity..].
Defined.

Lemma clamped_scalars_agree_witness :
  is_hex_text 32 Sample.private_key = true
  ∧ 64 ≤ length (replicate 65 x55)
  ∧ length (replicate 64 x00) = 64
  ∧ @Spec.scalar Sample.mixing Sample.private_key
    = Some (@createPublicKey_scalar Sample.mixing Sample.stale
              Sample.private_key)
  ∧ take 64 (@createPublicKey Sample.mixing Sample.stale (replicate 65 x55)
               Sample.private_key)
    = Spec.hexEncode
        (@ge_p3_tobytes Sample.mixing
           (@ge_scalarmult_base Sample.mixing
              (@createPublicKey_scalar Sample.mixing Sample.stale
                 Sample.private_key)))
  ∧ drop 32 (@Sign Sample.mixing Sample.stale' (replicate 64 x00)
               Sample.message Sample.public_key Sample.private_key)
    = @sc_muladd Sample.mixing
        (@sc_reduce Sample.mixing
           (@Spec.Hash512 Sample.mixing
              (take 32 (@Sign Sample.mixing Sample.stale' (replicate 64 x00)
                          Sample.message Sample.public_key
                          Sample.private_key)
               ++ scan_public_key Sample.stale' Sample.public_key
                    (scan_private_key Sample.stale' Sample.private_key)
               ++ Sample.message)))
        (@createPublicKey_scalar Sample.mixing Sample.stale
           Sample.private_key)
        (@sc_reduce Sample.mixing
           (@Spec.Hash512 Sample.mixing
              (take 32
                 (drop 32
                    (@Spec.Hash512 Sample.mixing
                       (scan_private_key Sample.stale' Sample.private_key)))
               ++ Sample.message))).
Proof.
  split; [reflexivity|]. split; [simpl; lia|]. split; [reflexivity|].
  apply (@clamped_scalars_agree Sample.mixing);
    [reflexivity|simpl; lia|reflexivity].
Defined.




Lemma SHA256_hash_digest_witness :
  64 ≤ length (replicate 65 x55)
  ∧ take 64 (@SHA256_hash Sample.collaborators (replicate 65 x55) [])
    = Spec.hexEncode (@Spec.Hash256 Sample.collaborators [])
  ∧ length (take 64 (@SHA256_hash Sample.collaborators
                       (replicate 65 x55) [])) = 64
  ∧ forallb is_lower_xdigit
      (take 64 (@SHA256_hash Sample.collaborators (replicate 65 x55) []))
    = true.
Proof.
  split; [simpl; lia|].
  apply (@SHA256_hash_digest Sample.collaborators). simpl; lia.
Defined.

Lemma Sign_R_ignores_public_key_witness :
  is_hex_text 32 Sample.private_key = true
  ∧ length (replicate 64 x00) = 64
  ∧ length (replicate 64 xff) = 64
  ∧ take 32 (@Sign Sample.collaborators Sample.stale (replicate 64 x00)
               Sample.message Sample.public_key Sample.private_key)
    = take 32 (@Sign Sample.collaborators Sample.stale' (replicate 64 xff)
                 Sample.message Sample.private_key Sample.private_key).
Proof.
  split; [reflexivity|]. split; [reflexivity|]. split; [reflexivity|].
  apply (@Sign_R_ignores_public_key Sample.collaborators); reflexivity.
Defined.

Lemma hex_decoding_ignores_case_witness :
  is_hex_text 32 Sample.private_key = true
  ∧ is_hex_text 32 Sample.public_key = true
  ∧ same_modulo_case Sample.private_key Sample.private_key_upper
  ∧ same_modulo_case Sample.public_key Sample.public_key_upper
  ∧ 64 ≤ length (replicate 65 x55)
  ∧ scan_private_key Sample.stale Sample.private_key
    = scan_private_key Sample.stale Sample.private_key_upper
  ∧ @createPublicKey Sample.collaborators Sample.stale (replicate 65 x55)
      Sample.private_key
    = @createPublicKey Sample.collaborators Sample.stale (replicate 65 x55)
        Sample.private_key_upper
  ∧ @Sign Sample.collaborators Sample.stale (replicate 64 x00)
      Sample.message Sample.public_key Sample.private_key
    = @Sign Sample.collaborators Sample.stale (replicate 64 x00)
        Sample.message Sample.public_key_upper Sample.private_key_upper
  ∧ forallb is_lower_xdigit
      (take 64 (@createPublicKey Sample.collaborators Sample.stale
                  (replicate 65 x55) Sample.private_key)) = true.
Proof.
  split; [reflexivity|]. split; [reflexivity|]. split; [reflexivity|].
  split; [reflexivity|]. split; [simpl; lia|].
  apply (@hex_decoding_ignores_case Sample.collaborators);
    [reflexivity|reflexivity|reflexivity|reflexivity|simpl; lia].
Defined.

(** * Further properties *)

(** ** Clamping *)



Lemma clamp_high_idempotent b :
  int_to_uchar (Z.setbit (Z.clearbit (uchar_to_int
    (int_to_uchar (Z.setbit (Z.clearbit (uchar_to_int b) 7) 6))) 7) 6)
  = int_to_uchar (Z.setbit (Z.clearbit (uchar_to_int b) 7) 6).
Proof. destruct b; vm_compute; done. Qed.

Lemma clamp_low_bits b :
  int_to_uchar
    (Z.clearbit (Z.clearbit (Z.clearbit (uchar_to_int
       (int_to_uchar
          (Z.clearbit (Z.clearbit (Z.clearbit (uchar_to_int b) 0) 1) 2)))
       0) 1) 2)
  = int_to_uchar (Z.clearbit (Z.clearbit (Z.clearbit (uchar_to_int b) 0) 1) 2).
Proof. destruct b; vm_compute; done. Qed.




Lemma clamp_lookup scalar i :
  i ≠ 0 → i ≠ 31 → Spec.clamp scalar !! i = scalar !! i.
Proof.
  intros H0 H31. unfold Spec.clamp.
  by rewrite !list_lookup_alter_ne by done.
Qed.

Lemma clamp_idempotent scalar :
  Spec.clamp (Spec.clamp scalar) = Spec.clamp scalar.
Proof.
  apply list_eq. intros i. unfold Spec.clamp.
  destruct (decide (i = 31)) as [->|H31];
    [|destruct (decide (i = 0)) as [->|H0]];
    repeat (rewrite list_lookup_alter_eq
            || rewrite list_lookup_alter_ne by done); [| |done].
  - destruct (scalar !! 31) as [b|]; [|done]. simpl. f_equal.
    apply clamp_high_idempotent.
  - destruct (scalar !! 0) as [b|]; [|done]. simpl. f_equal.
    apply clamp_low_bits.
Qed.


(** ** What [sscanf] does with a pair that is no pair of hex digits *)

Lemma sscanf_no_digit c rest :
  hex_value c = None → isspace c = false → c ≠ "+" → c ≠ "-" →
  sscanf_02x (c :: rest) = None.
Proof.
  intros Hv Hs Hp Hm. unfold sscanf_02x. cbn [skip_space]. rewrite Hs.
  destruct c; try done; rewrite Hv; done.
Qed.

Lemma sscanf_blank c s :
  isspace c = true → sscanf_02x (c :: s) = sscanf_02x s.
Proof. intros Hs. unfold sscanf_02x. cbn [skip_space]. by rewrite Hs. Qed.

Lemma drop_lookup_cons (text : list byte) k c :
  text !! k = Some c → drop k text = c :: drop (Datatypes.S k) text.
Proof. intros Hk. by apply drop_S. Qed.

Lemma scan_hex_round (g : indeterminate) text bytes i v :
  i < 32 → length bytes = 32 →
  (∀ value0, default value0 (sscanf_02x (drop (2 * i) text)) = v value0) →
  scan_private_key g text !! (31 - i) = Some (int_to_uchar (v (stale_int g i)))
  ∧ scan_public_key g text bytes !! i
    = Some (int_to_uchar (v (stale_int g (32 + i)))).
Proof.
  intros Hi Hb Hv. split.
  - unfold scan_private_key, privateKeyPartSize.
    rewrite (scan_hex_backward_lookup 32) by (done || apply length_uninitialized).
    by rewrite Hv.
  - unfold scan_public_key, publicKeySize, privateKeyPartSize.
    rewrite (scan_hex_forward_lookup 32) by lia.
    by rewrite Hv.
Qed.

Lemma hexEncode_inj b1 b2 :
  Spec.hexEncode b1 = Spec.hexEncode b2 → b1 = b2.
Proof.
  intros Heq.
  assert (Hlen : length b1 = length b2).
  { apply (f_equal length) in Heq. rewrite !length_hexEncode in Heq. lia. }
  rewrite <- (hex_bytes_hexEncode b1), <- (hex_bytes_hexEncode b2).
  by rewrite Heq, Hlen.
Qed.

Lemma print_hex_string src out :
  length src = 32 → 65 ≤ length out →
  print_hex 32 src out = Spec.hexEncode src ++ x00 :: drop 65 out.
Proof.
  intros Hsrc Hout. rewrite print_hex_room by lia.
  rewrite load_seq by lia. by rewrite take_ge by lia.
Qed.

(** ** Further properties of the generator *)

(** X1.  Clamping twice is clamping once. *)
Theorem clamp_in_place_idempotent h :
  clamp_in_place (clamp_in_place h) = clamp_in_place h.
Proof. rewrite !clamp_in_place_spec. apply clamp_idempotent. Qed.

(** X3.  Clamping keeps the length of the buffer and every byte but the
    first and the thirty-second. *)
Theorem clamp_in_place_frame h i :
  i ≠ 0 → i ≠ 31 →
  clamp_in_place h !! i = h !! i ∧ length (clamp_in_place h) = length h.
Proof.
  intros H0 H31. rewrite clamp_in_place_spec.
  split; [by apply clamp_lookup|apply length_clamp].
Qed.

(** X8.  Where the character pair number [i] starts with a character that
    is no hex digit, no sign and no white space, [sscanf] stores nothing
    and the byte of that pair is whatever the uninitialised [value] held. *)
Theorem scan_no_digit g text bytes i c :
  i < 32 → length bytes = 32 →
  text !! (2 * i) = Some c →
  hex_value c = None → isspace c = false → c ≠ "+" → c ≠ "-" →
  scan_private_key g text !! (31 - i) = Some (int_to_uchar (stale_int g i))
  ∧ scan_public_key g text bytes !! i
    = Some (int_to_uchar (stale_int g (32 + i))).
Proof.
  intros Hi Hb Hc Hv Hs Hp Hm.
  apply (scan_hex_round g text bytes i (λ v, v)); try done.
  intros value0. rewrite (drop_lookup_cons _ _ _ Hc).
  by rewrite sscanf_no_digit.
Qed.

(** X9.  A character pair made of a sign and a hex digit is read as a
    signed number: [+d] gives the byte [d], [-d] the byte [256 - d]
    ([0] for [-0]). *)
Theorem scan_signed_digit g text bytes i s c1 d1 :
  i < 32 → length bytes = 32 →
  text !! (2 * i) = Some s → s = "+" ∨ s = "-" →
  text !! (2 * i + 1) = Some c1 → hex_value c1 = Some d1 →
  scan_private_key g text !! (31 - i)
  = Some (int_to_uchar (if Byte.eqb s "-" then 256 - d1 else d1))
  ∧ scan_public_key g text bytes !! i
    = Some (int_to_uchar (if Byte.eqb s "-" then 256 - d1 else d1)).
Proof.
  intros Hi Hb H0 Hs H1 Hd1.
  assert (Hnext : drop (Datatypes.S (2 * i)) text
                  = c1 :: drop (Datatypes.S (Datatypes.S (2 * i))) text).
  { apply drop_lookup_cons. by replace (Datatypes.S (2 * i)) with (2 * i + 1)
      by lia. }
  destruct Hs as [-> | ->];
    [change (Byte.eqb "+" "-") with false
    |change (Byte.eqb "-" "-") with true]; cbv iota.
  - apply (scan_hex_round g text bytes i (λ _, d1)); try done.
    intros value0. rewrite (drop_lookup_cons _ _ _ H0), Hnext.
    unfold sscanf_02x. cbn [skip_space isspace head mbind option_bind].
    by rewrite Hd1.
  - replace (int_to_uchar (256 - d1)) with (int_to_uchar (- d1)).
    + apply (scan_hex_round g text bytes i (λ _, (- d1)%Z)); try done.
      intros value0. rewrite (drop_lookup_cons _ _ _ H0), Hnext.
      unfold sscanf_02x. cbn [skip_space isspace head mbind option_bind].
      by rewrite Hd1.
    + unfold int_to_uchar. do 3 f_equal.
      replace (256 - d1)%Z with (- d1 + 1 * 256)%Z by lia.
      by rewrite Z.mod_add by lia.
Qed.

(** X10.  A character pair that starts with white space takes its digits
    from the characters after it: the second character of the pair and
    the first character of the next pair. *)
Theorem scan_blank_overlaps g text bytes i c c1 c2 d1 d2 :
  i < 32 → length bytes = 32 →
  text !! (2 * i) = Some c → isspace c = true →
  text !! (2 * i + 1) = Some c1 → hex_value c1 = Some d1 →
  text !! (2 * i + 2) = Some c2 → hex_value c2 = Some d2 →
  scan_private_key g text !! (31 - i) = Some (int_to_uchar (16 * d1 + d2))
  ∧ scan_public_key g text bytes !! i = Some (int_to_uchar (16 * d1 + d2)).
Proof.
  intros Hi Hb Hc Hs H1 Hd1 H2 Hd2.
  apply (scan_hex_round g text bytes i (λ _, (16 * d1 + d2)%Z)); try done.
  intros value0. rewrite (drop_lookup_cons _ _ _ Hc), sscanf_blank by done.
  rewrite (drop_lookup_cons _ (Datatypes.S (2 * i)) c1)
    by (by replace (Datatypes.S (2 * i)) with (2 * i + 1) by lia).
  rewrite (drop_lookup_cons _ (Datatypes.S (Datatypes.S (2 * i))) c2)
    by (by replace (Datatypes.S (Datatypes.S (2 * i))) with (2 * i + 2) by lia).
  by rewrite (sscanf_two_digits _ _ _ _ _ Hd1 Hd2).
Qed.

(** X11.  The two scanning loops are mirror images: on one text of 64 hex
    digits, the private key loop fills its buffer with the reversal of
    what the public key loop stores. *)
Theorem scanning_loops_mirror g g' text bytes :
  is_hex_text 32 text = true → length bytes = 32 →
  scan_private_key g text = reverse (scan_public_key g' text bytes).
Proof.
  intros Hhex Hb.
  by rewrite scan_private_key_valid, scan_public_key_valid by done.
Qed.

Section Generator_extras.
Context `{Collaborators}.


(** X4.  Only the first 64 characters of a well-formed key text are read:
    what follows them in the caller's buffer (a NUL or anything else)
    changes neither the public key nor the signature. *)
Theorem trailing_bytes_are_ignored g public_key signature data
    public_key_text private_key rest rest' :
  is_hex_text 32 private_key = true →
  is_hex_text 32 public_key_text = true →
  createPublicKey g public_key (private_key ++ rest)
  = createPublicKey g public_key private_key
  ∧ Sign g signature data (public_key_text ++ rest') (private_key ++ rest)
    = Sign g signature data public_key_text private_key.
Proof.
  intros Hpriv Hpub.
  pose proof (scan_private_key_tail g private_key rest Hpriv) as Hk.
  rewrite <- (scan_private_key_valid g private_key Hpriv) in Hk.
  split.
  - unfold createPublicKey, createPublicKey_scalar. by rewrite Hk.
  - unfold Sign. rewrite Hk.
    rewrite (scan_public_key_tail g public_key_text rest')
      by (done || apply scan_private_key_length).
    by rewrite (scan_public_key_valid g public_key_text)
      by (done || apply scan_private_key_length).
Qed.

(** X5.  [createPublicKey] accepts what [createPrivateKey] stored, though
    no NUL ends it and whatever follows it in the buffer: the public key
    text comes from the reversal of the first 32 bytes of the hash of the
    seed. *)
Theorem generated_key_derives g g' seed out_private_key public_key :
  64 ≤ length out_private_key →
  64 ≤ length public_key →
  take 64 (createPublicKey g' public_key
             (createPrivateKey g seed out_private_key))
  = Spec.hexEncode
      (ge_p3_tobytes
         (ge_scalarmult_base
            (Spec.clamp
               (take 32
                  (Spec.Hash512
                     (reverse (take 32 (Spec.Hash512 (take 32 seed)))))))))
  ∧ take 64 (createPrivateKey g seed out_private_key)
    = Spec.hexEncode (take 32 (Spec.Hash512 (take 32 seed))).
Proof.
  intros Hout Hpub. rewrite createPrivateKey_eq by done.
  set (K := take 32 (Spec.Hash512 (take 32 seed))).
  assert (HK : length K = 32).
  { unfold K, Spec.Hash512. rewrite length_take, keccak_length. lia. }
  pose proof (is_hex_text_hexEncode K) as Hhex. rewrite HK in Hhex.
  pose proof (hex_bytes_hexEncode K) as Hbytes. rewrite HK in Hbytes.
  split.
  - rewrite createPublicKey_eq by done.
    rewrite createPublicKey_scalar_eq, scan_private_key_tail by done.
    by rewrite Hbytes.
  - apply take_app_length'. by rewrite length_hexEncode, HK.
Qed.

(** X6.  Signing with the public key text that [createPublicKey] printed
    for the same private key, held with the message in buffers that the
    first 32 bytes of the signature buffer do not overlap: the 32 bytes
    [Sign] scans from that text, and hashes between [R] and the message,
    are the encoded point [A] itself. *)
Theorem Sign_with_derived_public_key g g' m buffer signature data dataSize
    public_key privateKey :
  is_hex_text 32 (take 64 (drop privateKey m)) = true →
  64 ≤ length buffer →
  take 64 (drop public_key m)
  = take 64 (createPublicKey g' buffer (take 64 (drop privateKey m))) →
  signature + 64 ≤ length m →
  data + dataSize ≤ length m →
  signature + 32 ≤ data ∨ data + dataSize ≤ signature →
  signature + 32 ≤ public_key ∨ public_key + 64 ≤ signature →
  take 64
    (drop signature
       (Sign_at g m signature data dataSize public_key privateKey))
  = signature_of (reverse (hex_bytes (take 64 (drop privateKey m)) 32))
      (ge_p3_tobytes
         (ge_scalarmult_base
            (Spec.clamp
               (take 32
                  (Spec.Hash512
                     (reverse
                        (hex_bytes (take 64 (drop privateKey m)) 32)))))))
      (take dataSize (drop data m)).
Proof.
  intros Hpriv Hbuf Hpub Hsig Hdata Hd Hp.
  rewrite createPublicKey_eq in Hpub by done.
  rewrite createPublicKey_scalar_eq, scan_private_key_valid in Hpub by done.
  set (A := ge_p3_tobytes _) in *.
  assert (HA : length A = 32) by apply ge_p3_tobytes_length.
  pose proof (is_hex_text_hexEncode A) as Hhex. rewrite HA in Hhex.
  pose proof (hex_bytes_hexEncode A) as Hbytes. rewrite HA in Hbytes.
  rewrite Sign_at_separate by (done || by rewrite Hpub).
  by rewrite Hpub, Hbytes.
Qed.

(** X14.  Signing in place.  When the message of at least 32 bytes lies
    in the signature buffer itself, the nonce [r] and the point [R] come
    from the message, but the second hash is taken after [R] has replaced
    the first 32 bytes of the message: it reads [R], the public key bytes,
    and [R] followed by the message from its byte 32 on. *)
Theorem Sign_at_in_place g m signature dataSize public_key privateKey :
  is_hex_text 32 (take 64 (drop privateKey m)) = true →
  is_hex_text 32 (take 64 (drop public_key m)) = true →
  signature + 64 ≤ length m →
  32 ≤ dataSize →
  signature + dataSize ≤ length m →
  signature + 32 ≤ public_key ∨ public_key + 64 ≤ signature →
  let message := take dataSize (drop signature m) in
  let kBytes := reverse (hex_bytes (take 64 (drop privateKey m)) 32) in
  let r :=
    sc_reduce
      (Spec.Hash512 (take 32 (drop 32 (Spec.Hash512 kBytes)) ++ message)) in
  let encodedR := ge_p3_tobytes (ge_scalarmult_base r) in
  let hram :=
    sc_reduce
      (Spec.Hash512
         (encodedR ++ hex_bytes (take 64 (drop public_key m)) 32
          ++ encodedR ++ drop 32 message)) in
  take 64
    (drop signature
       (Sign_at g m signature signature dataSize public_key privateKey))
  = encodedR ++ sc_muladd hram (Spec.clamp (take 32 (Spec.Hash512 kBytes))) r.
Proof.
  intros Hpriv Hpub Hsig Hn Hdata Hp. cbv zeta.
  rewrite Sign_at_eq by done. cbv zeta.
  assert (Hk : scan_private_key g (drop privateKey m)
               = reverse (hex_bytes (take 64 (drop privateKey m)) 32)).
  { rewrite <- (take_drop 64 (drop privateKey m)) at 1.
    by apply scan_private_key_tail. }
  rewrite Hk.
  set (kBytes := reverse (hex_bytes (take 64 (drop privateKey m)) 32)).
  set (message := take dataSize (drop signature m)).
  set (encodedR := ge_p3_tobytes _).
  assert (HR : length encodedR = 32) by apply ge_p3_tobytes_length.
  rewrite (take_drop_list_inserts_over encodedR m signature dataSize)
    by (rewrite ?HR; lia).
  fold message. rewrite HR.
  rewrite <- (take_drop 64 (drop public_key (list_inserts _ encodedR m))).
  rewrite (take_drop_list_inserts_disjoint encodedR m signature public_key 64)
    by (rewrite HR; lia).
  rewrite scan_public_key_tail
    by (done || unfold kBytes; by rewrite length_reverse, length_hex_bytes).
  rewrite take_drop_two_inserts
    by (done || apply sc_muladd_length).
  done.
Qed.

(** X12.  [SHA256_hash] and [createPublicKey] store a C string: 64 hex
    digits and a NUL, 65 bytes in all, and leave the rest of the buffer
    as it was. *)
Theorem hex_outputs_are_C_strings g out input public_key private_key :
  65 ≤ length out →
  65 ≤ length public_key →
  SHA256_hash out input
  = Spec.hexEncode (Spec.Hash256 input) ++ x00 :: drop 65 out
  ∧ createPublicKey g public_key private_key
    = Spec.hexEncode
        (ge_p3_tobytes
           (ge_scalarmult_base (createPublicKey_scalar g private_key)))
      ++ x00 :: drop 65 public_key.
Proof.
  intros Hout Hpub. split.
  - unfold SHA256_hash, Spec.Hash256, hash_256_Size. cbv zeta.
    rewrite (take_ge input) by lia.
    apply print_hex_string; [apply keccak_length|done].
  - unfold createPublicKey, publicKeySize. cbv zeta.
    apply print_hex_string; [apply ge_p3_tobytes_length|done].
Qed.

(** X13.  The text [SHA256_hash] prints determines the digest: two inputs
    get the same 64 characters exactly when their 32-byte digests are
    equal. *)
Theorem SHA256_hash_text_injective out1 out2 input1 input2 :
  64 ≤ length out1 →
  64 ≤ length out2 →
  take 64 (SHA256_hash out1 input1) = take 64 (SHA256_hash out2 input2)
  ↔ keccak input1 32 = keccak input2 32.
Proof.
  intros H1 H2. rewrite !SHA256_hash_eq by done.
  unfold Spec.digest, Spec.Hash256. split.
  - apply hexEncode_inj.
  - by intros ->.
Qed.

End Generator_extras.

(** ** The further properties at sample inputs *)

Lemma clamp_in_place_frame_witness :
  5 ≠ 0 ∧ 5 ≠ 31
  ∧ clamp_in_place (replicate 32 xff) !! 5 = replicate 32 xff !! 5
  ∧ length (clamp_in_place (replicate 32 xff)) = length (replicate 32 xff).
Proof.
  split; [lia|]. split; [lia|].
  apply (clamp_in_place_frame (replicate 32 xff) 5); lia.
Defined.

Lemma scan_no_digit_witness :
  0 < 32 ∧ length (replicate 32 x55) = 32
  ∧ ("g" :: replicate 63 "f") !! (2 * 0) = Some "g"
  ∧ hex_value "g" = None ∧ isspace "g" = false ∧ "g" ≠ "+" ∧ "g" ≠ "-"
  ∧ scan_private_key Sample.stale ("g" :: replicate 63 "f") !! (31 - 0)
    = Some (int_to_uchar (stale_int Sample.stale 0))
  ∧ scan_public_key Sample.stale ("g" :: replicate 63 "f")
      (replicate 32 x55) !! 0
    = Some (int_to_uchar (stale_int Sample.stale (32 + 0))).
Proof.
  split; [lia|]. split; [reflexivity|]. split; [reflexivity|].
  split; [reflexivity|]. split; [reflexivity|].
  split; [discriminate|]. split; [discriminate|].
  apply (scan_no_digit Sample.stale ("g" :: replicate 63 "f")
           (replicate 32 x55) 0 "g");
    [lia|reflexivity|reflexivity|reflexivity|reflexivity
    |discriminate|discriminate].
Defined.

Lemma scan_signed_digit_witness :
  0 < 32 ∧ length (replicate 32 x55) = 32
  ∧ ("-" :: "1" :: replicate 62 "f") !! (2 * 0) = Some "-"
  ∧ ("-" = "+" ∨ "-" = "-")
  ∧ ("-" :: "1" :: replicate 62 "f") !! (2 * 0 + 1) = Some "1"
  ∧ hex_value "1" = Some 1%Z
  ∧ scan_private_key Sample.stale ("-" :: "1" :: replicate 62 "f") !! (31 - 0)
    = Some (int_to_uchar (if Byte.eqb "-" "-" then 256 - 1 else 1))
  ∧ scan_public_key Sample.stale ("-" :: "1" :: replicate 62 "f")
      (replicate 32 x55) !! 0
    = Some (int_to_uchar (if Byte.eqb "-" "-" then 256 - 1 else 1)).
Proof.
  split; [lia|]. split; [reflexivity|]. split; [reflexivity|].
  split; [right; reflexivity|]. split; [reflexivity|]. split; [reflexivity|].
  apply (scan_signed_digit Sample.stale ("-" :: "1" :: replicate 62 "f")
           (replicate 32 x55) 0 "-" "1" 1%Z);
    [lia|reflexivity|reflexivity|right; reflexivity|reflexivity|reflexivity].
Defined.

Lemma scan_blank_overlaps_witness :
  0 < 32 ∧ length (replicate 32 x55) = 32
  ∧ (" " :: "a" :: "b" :: replicate 61 "f") !! (2 * 0) = Some " "
  ∧ isspace " " = true
  ∧ (" " :: "a" :: "b" :: replicate 61 "f") !! (2 * 0 + 1) = Some "a"
  ∧ hex_value "a" = Some 10%Z
  ∧ (" " :: "a" :: "b" :: replicate 61 "f") !! (2 * 0 + 2) = Some "b"
  ∧ hex_value "b" = Some 11%Z
  ∧ scan_private_key Sample.stale (" " :: "a" :: "b" :: replicate 61 "f")
      !! (31 - 0)
    = Some (int_to_uchar (16 * 10 + 11))
  ∧ scan_public_key Sample.stale (" " :: "a" :: "b" :: replicate 61 "f")
      (replicate 32 x55) !! 0
    = Some (int_to_uchar (16 * 10 + 11)).
Proof.
  split; [lia|]. split; [reflexivity|]. split; [reflexivity|].
  split; [reflexivity|]. split; [reflexivity|]. split; [reflexivity|].
  split; [reflexivity|]. split; [reflexivity|].
  apply (scan_blank_overlaps Sample.stale
           (" " :: "a" :: "b" :: replicate 61 "f") (replicate 32 x55)
           0 " " "a" "b" 10%Z 11%Z); [lia|reflexivity..].
Defined.


Lemma scanning_loops_mirror_witness :
  is_hex_text 32 Sample.private_key = true
  ∧ length (replicate 32 x55) = 32
  ∧ scan_private_key Sample.stale Sample.private_key
    = reverse (scan_public_key Sample.stale' Sample.private_key
                 (replicate 32 x55)).
Proof.
  split; [reflexivity|]. split; [reflexivity|].
  apply (scanning_loops_mirror Sample.stale Sample.stale' Sample.private_key
           (replicate 32 x55)); reflexivity.
Defined.

Lemma trailing_bytes_are_ignored_witness :
  is_hex_text 32 Sample.private_key = true
  ∧ is_hex_text 32 Sample.public_key = true
  ∧ @createPublicKey Sample.collaborators Sample.stale (replicate 65 x55)
      (Sample.private_key ++ [x00; "z"])
    = @createPublicKey Sample.collaborators Sample.stale (replicate 65 x55)
        Sample.private_key
  ∧ @Sign Sample.collaborators Sample.stale (replicate 64 x00) Sample.message
      (Sample.public_key ++ ["7"]) (Sample.private_key ++ [x00; "z"])
    = @Sign Sample.collaborators Sample.stale (replicate 64 x00)
        Sample.message Sample.public_key Sample.private_key.
Proof.
  split; [reflexivity|]. split; [reflexivity|].
  apply (@trailing_bytes_are_ignored Sample.collaborators); reflexivity.
Defined.

Lemma generated_key_derives_witness :
  64 ≤ length (replicate 70 "9")
  ∧ 64 ≤ length (replicate 65 x55)
  ∧ take 64 (@createPublicKey Sample.collaborators Sample.stale'
               (replicate 65 x55)
               (@createPrivateKey Sample.collaborators Sample.stale
                  Sample.seed (replicate 70 "9")))
    = Spec.hexEncode
        (@ge_p3_tobytes Sample.collaborators
           (@ge_scalarmult_base Sample.collaborators
              (Spec.clamp
                 (take 32
                    (@Spec.Hash512 Sample.collaborators
                       (reverse
                          (take 32
                             (@Spec.Hash512 Sample.collaborators
                                (take 32 Sample.seed)))))))))
  ∧ take 64 (@createPrivateKey Sample.collaborators Sample.stale
               Sample.seed (replicate 70 "9"))
    = Spec.hexEncode
        (take 32 (@Spec.Hash512 Sample.collaborators (take 32 Sample.seed))).
Proof.
  split; [simpl; lia|]. split; [simpl; lia|].
  apply (@generated_key_derives Sample.collaborators); simpl; lia.
Defined.

Lemma Sign_with_derived_public_key_witness :
  is_hex_text 32 (take 64 (drop 132 Sample.derived_store)) = true
  ∧ 64 ≤ length (replicate 65 x55)
  ∧ take 64 (drop 67 Sample.derived_store)
    = take 64 (@createPublicKey Sample.mixing Sample.stale'
                 (replicate 65 x55) (take 64 (drop 132 Sample.derived_store)))
  ∧ 0 + 64 ≤ length Sample.derived_store
  ∧ 64 + 3 ≤ length Sample.derived_store
  ∧ (0 + 32 ≤ 64 ∨ 64 + 3 ≤ 0)
  ∧ (0 + 32 ≤ 67 ∨ 67 + 64 ≤ 0)
  ∧ take 64
      (drop 0
         (@Sign_at Sample.mixing Sample.stale Sample.derived_store
            0 64 3 67 132))
    = @signature_of Sample.mixing
        (reverse (hex_bytes (take 64 (drop 132 Sample.derived_store)) 32))
        (@ge_p3_tobytes Sample.mixing
           (@ge_scalarmult_base Sample.mixing
              (Spec.clamp
                 (take 32
                    (@Spec.Hash512 Sample.mixing
                       (reverse
                          (hex_bytes
                             (take 64 (drop 132 Sample.derived_store))
                             32)))))))
        (take 3 (drop 64 Sample.derived_store)).
Proof.
  split; [reflexivity|]. split; [simpl; lia|]. split; [reflexivity|].
  split; [simpl; lia|]. split; [simpl; lia|]. split; [left; lia|].
  split; [left; lia|].
  apply (@Sign_with_derived_public_key Sample.mixing Sample.stale
           Sample.stale' Sample.derived_store (replicate 65 x55));
    [reflexivity|simpl; lia|reflexivity|simpl; lia|simpl; lia
    |left; lia|left; lia].
Defined.

Lemma Sign_at_in_place_witness :
  is_hex_text 32 (take 64 (drop 129 Sample.store_in_place)) = true
  ∧ is_hex_text 32 (take 64 (drop 64 Sample.store_in_place)) = true
  ∧ 0 + 64 ≤ length Sample.store_in_place
  ∧ 32 ≤ 64
  ∧ 0 + 64 ≤ length Sample.store_in_place
  ∧ (0 + 32 ≤ 64 ∨ 64 + 64 ≤ 0)
  ∧ take 64
      (drop 0
         (@Sign_at Sample.mixing Sample.stale Sample.store_in_place
            0 0 64 64 129))
    = @ge_p3_tobytes Sample.mixing
        (@ge_scalarmult_base Sample.mixing
           (@sc_reduce Sample.mixing
              (@Spec.Hash512 Sample.mixing
                 (take 32
                    (drop 32
                       (@Spec.Hash512 Sample.mixing
                          (reverse
                             (hex_bytes
                                (take 64 (drop 129 Sample.store_in_place))
                                32))))
                  ++ take 64 (drop 0 Sample.store_in_place)))))
      ++ @sc_muladd Sample.mixing
           (@sc_reduce Sample.mixing
              (@Spec.Hash512 Sample.mixing
                 (@ge_p3_tobytes Sample.mixing
                    (@ge_scalarmult_base Sample.mixing
                       (@sc_reduce Sample.mixing
                          (@Spec.Hash512 Sample.mixing
                             (take 32
                                (drop 32
                                   (@Spec.Hash512 Sample.mixing
                                      (reverse
                                         (hex_bytes
                                            (take 64
                                               (drop 129
                                                  Sample.store_in_place))
                                            32))))
                              ++ take 64 (drop 0 Sample.store_in_place)))))
                  ++ hex_bytes (take 64 (drop 64 Sample.store_in_place)) 32
                  ++ @ge_p3_tobytes Sample.mixing
                       (@ge_scalarmult_base Sample.mixing
                          (@sc_reduce Sample.mixing
                             (@Spec.Hash512 Sample.mixing
                                (take 32
                                   (drop 32
                                      (@Spec.Hash512 Sample.mixing
                                         (reverse
                                            (hex_bytes
                                               (take 64
                                                  (drop 129
                                                     Sample.store_in_place))
                                               32))))
                                 ++ take 64 (drop 0 Sample.store_in_place)))))
                  ++ drop 32 (take 64 (drop 0 Sample.store_in_place)))))
           (Spec.clamp
              (take 32
                 (@Spec.Hash512 Sample.mixing
                    (reverse
                       (hex_bytes
                          (take 64 (drop 129 Sample.store_in_place)) 32)))))
           (@sc_reduce Sample.mixing
              (@Spec.Hash512 Sample.mixing
                 (take 32
                    (drop 32
                       (@Spec.Hash512 Sample.mixing
                          (reverse
                             (hex_bytes
                                (take 64 (drop 129 Sample.store_in_place))
                                32))))
                  ++ take 64 (drop 0 Sample.store_in_place)))).
Proof.
  split; [reflexivity|]. split; [reflexivity|]. split; [simpl; lia|].
  split; [lia|]. split; [simpl; lia|]. split; [left; lia|].
  apply (@Sign_at_in_place Sample.mixing Sample.stale Sample.store_in_place
           0 64 64 129);
    [reflexivity|reflexivity|simpl; lia|lia|simpl; lia|left; lia].
Defined.

Lemma hex_outputs_are_C_strings_witness :
  65 ≤ length (replicate 70 x55)
  ∧ 65 ≤ length (replicate 65 xff)
  ∧ @SHA256_hash Sample.collaborators (replicate 70 x55) Sample.message
    = Spec.hexEncode (@Spec.Hash256 Sample.collaborators Sample.message)
      ++ x00 :: drop 65 (replicate 70 x55)
  ∧ @createPublicKey Sample.collaborators Sample.stale (replicate 65 xff)
      Sample.private_key
    = Spec.hexEncode
        (@ge_p3_tobytes Sample.collaborators
           (@ge_scalarmult_base Sample.collaborators
              (@createPublicKey_scalar Sample.collaborators Sample.stale
                 Sample.private_key)))
      ++ x00 :: drop 65 (replicate 65 xff).
Proof.
  split; [simpl; lia|]. split; [simpl; lia|].
  apply (@hex_outputs_are_C_strings Sample.collaborators); simpl; lia.
Defined.

Lemma SHA256_hash_text_injective_witness :
  64 ≤ length (replicate 65 x55)
  ∧ 64 ≤ length (replicate 64 xff)
  ∧ (take 64 (@SHA256_hash Sample.collaborators (replicate 65 x55)
                Sample.message)
     = take 64 (@SHA256_hash Sample.collaborators (replicate 64 xff) [])
     ↔ @keccak Sample.collaborators Sample.message 32
       = @keccak Sample.collaborators [] 32).
Proof.
  split; [simpl; lia|]. split; [simpl; lia|].
  apply (@SHA256_hash_text_injective Sample.collaborators); simpl; lia.
Defined.
